(** * MathBoard-AI: the whiteboard engine and its host

    A shallow embedding of [src/components/Whiteboard.tsx] (the React
    component [Whiteboard]: its event handlers, [drawPath], [drawGrid] and
    the render effect), of the handlers of [App] it is wired to (the note
    catalog and the updaters of the active note), and of the pure parts of
    [Chat] and of the tutor service, with the properties proved over them.

    Modelling conventions.
    - A JavaScript [number] is an exact rational ([Qc], canonical fractions,
      so that equal numbers are equal terms).  Rounding, infinities and NaN
      of binary64 are outside the model.  A division by zero yields 0 in
      [Qc]; every arithmetic identity proved below that goes through a
      division assumes its divisor is not zero.
    - A React event handler is a function from the state of the last render
      and the event to the list of calls it issues, in source order: state
      setters ([setIsDrawing], [setCurrentPath], ...), the callbacks received
      from the host ([setPaths], [setViewport]) and the DOM pointer-capture
      calls.  [applyUpdate] gives each call its meaning, [step] runs one
      handler and applies its calls, [run] handles a sequence of events, the
      component being rendered again between two events. *)

From Stdlib Require Import QArith Qcanon List String Bool Arith NArith Lia Lqa.
From Stdlib Require Import Ascii DecimalString ZArith Qround.
Import ListNotations.

Open Scope Qc_scope.

(** ** Numbers *)

Definition number : Type := Qc.

(** Decimal literals of the source. *)
Definition lit (q : Q) : number := Q2Qc q.

Definition leb (a b : number) : bool := Qle_bool a b.
Definition ltb (a b : number) : bool := negb (Qle_bool b a).

(** [Math.max], [Math.min] and [Math.sign] on numbers. *)
Definition Math_max (a b : number) : number := if leb a b then b else a.
Definition Math_min (a b : number) : number := if leb a b then a else b.
Definition Math_sign (a : number) : number :=
  if ltb a 0 then Qcopp 1 else if ltb 0 a then 1 else 0.

(** [Date.now().toString()]: the decimal rendering of the clock value. *)
Definition toString (n : N) : string := NilZero.string_of_uint (N.to_uint n).

(** ** Data model ([types]) *)

Module Point.
Record t : Type := mk { x : number; y : number; pressure : option number }.
End Point.

(** [type Tool] of the component; a [DrawingPath] never carries [pan]
    ([startDrawing] returns before building one). *)
Inductive Tool : Type :=
  pen | eraser | highlighter | pan | rectangle | circle | line.

Definition Tool_eqb (a b : Tool) : bool :=
  match a, b with
  | pen, pen | eraser, eraser | highlighter, highlighter | pan, pan
  | rectangle, rectangle | circle, circle | line, line => true
  | _, _ => false
  end.

Module DrawingPath.
Record t : Type := mk {
  id : string;
  points : list Point.t;
  color : string;
  width : number;
  tool : Tool;
  isFilled : option bool
}.

(** [{ ...prev, points: ps }] *)
Definition with_points (prev : t) (ps : list Point.t) : t :=
  mk (id prev) ps (color prev) (width prev) (tool prev) (isFilled prev).
End DrawingPath.

Module Viewport.
Record t : Type := mk { x : number; y : number; scale : number }.
End Viewport.

(** What the handlers read of the canvas element behind [canvasRef]:
    [getBoundingClientRect()] and the [width] and [height] attributes. *)
Record Canvas : Type := {
  rect_left : number;
  rect_top : number;
  canvas_width : number;
  canvas_height : number
}.

(** ** Events *)

Record PointerEvent : Type := {
  clientX : number;
  clientY : number;
  e_pressure : number;
  buttons : N;
  movementX : number;
  movementY : number;
  pointerId : N
}.

(** A wheel event on the outer [div]; [w_left] and [w_top] are the bounding
    rectangle of [e.currentTarget]. *)
Record WheelEvent : Type := {
  w_clientX : number;
  w_clientY : number;
  deltaY : number;
  w_left : number;
  w_top : number
}.

Inductive Event : Type :=
| PointerDown (e : PointerEvent) (now : N)   (* onPointerDown; [now] is Date.now() *)
| PointerMove (e : PointerEvent)             (* onPointerMove *)
| PointerUp (e : PointerEvent)               (* onPointerUp *)
| PointerLeave (e : PointerEvent)            (* onPointerLeave *)
| Wheel (w : WheelEvent)                     (* onWheel *)
| ZoomOutClick                               (* manualZoom(-0.25) *)
| ZoomInClick                                (* manualZoom(0.25) *)
| SliderChange (position : number)           (* onChange of the range input *)
| UndoClick
| ClearClick (confirmed : bool)              (* answer of window.confirm *)
| ToolClick (t : Tool)
| ColorChange (c : string)
| WidthChange (w : number).

(** ** State

    The props [paths], [viewport] and [readOnly] (owned by the host note),
    the [useState] cells of the component and the canvas reference. *)

Record State : Type := mkState {
  paths : list DrawingPath.t;
  viewport : Viewport.t;
  readOnly : bool;
  canvasRef : option Canvas;
  isDrawing : bool;
  currentTool : Tool;
  color : string;
  width : number;
  currentPath : option DrawingPath.t
}.

Definition with_paths (st : State) (l : list DrawingPath.t) : State :=
  mkState l (viewport st) (readOnly st) (canvasRef st) (isDrawing st)
          (currentTool st) (color st) (width st) (currentPath st).
Definition with_viewport (st : State) (v : Viewport.t) : State :=
  mkState (paths st) v (readOnly st) (canvasRef st) (isDrawing st)
          (currentTool st) (color st) (width st) (currentPath st).
Definition with_readOnly (st : State) (b : bool) : State :=
  mkState (paths st) (viewport st) b (canvasRef st) (isDrawing st)
          (currentTool st) (color st) (width st) (currentPath st).
Definition with_isDrawing (st : State) (b : bool) : State :=
  mkState (paths st) (viewport st) (readOnly st) (canvasRef st) b
          (currentTool st) (color st) (width st) (currentPath st).
Definition with_currentTool (st : State) (t : Tool) : State :=
  mkState (paths st) (viewport st) (readOnly st) (canvasRef st) (isDrawing st)
          t (color st) (width st) (currentPath st).
Definition with_color (st : State) (c : string) : State :=
  mkState (paths st) (viewport st) (readOnly st) (canvasRef st) (isDrawing st)
          (currentTool st) c (width st) (currentPath st).
Definition with_width (st : State) (w : number) : State :=
  mkState (paths st) (viewport st) (readOnly st) (canvasRef st) (isDrawing st)
          (currentTool st) (color st) w (currentPath st).
Definition with_currentPath (st : State) (p : option DrawingPath.t) : State :=
  mkState (paths st) (viewport st) (readOnly st) (canvasRef st) (isDrawing st)
          (currentTool st) (color st) (width st) p.

(** ** Calls issued by the handlers

    [onCapture] is the third callback [App] passes to [<Whiteboard>]
    ([handleWhiteboardCapture]).  A functional updater given to
    [setCurrentPath] returns [None] when its result is not a [DrawingPath]
    (it would store [undefined] in a [Point[]]). *)

Inductive Update : Type :=
| setIsDrawing (b : bool)
| setCurrentPath (f : option DrawingPath.t -> option (option DrawingPath.t))
| setCurrentTool (t : Tool)
| setColor (c : string)
| setWidth (w : number)
| setPaths (l : list DrawingPath.t)
| setViewport (v : Viewport.t)
| onCapture (imageData : string)
| setPointerCapture (pid : N)
| releasePointerCapture (pid : N).

(** ** Handlers of [Whiteboard] *)

Definition handleUndo (st : State) : list Update :=
  if (0 <? List.length (paths st))%nat
  then [setPaths (removelast (paths st))]
  else [].

Definition handleClear (st : State) (confirmed : bool) : list Update :=
  if confirmed then [setPaths []] else [].

Definition getCanvasPoint (st : State) (e : PointerEvent) : Point.t :=
  match canvasRef st with
  | None => Point.mk 0 0 None
  | Some canvas =>
      Point.mk
        ((clientX e - rect_left canvas - Viewport.x (viewport st))
           / Viewport.scale (viewport st))
        ((clientY e - rect_top canvas - Viewport.y (viewport st))
           / Viewport.scale (viewport st))
        (Some (e_pressure e))
  end.

Definition startDrawing (st : State) (e : PointerEvent) (now : N)
  : list Update :=
  if readOnly st then []
  else if Tool_eqb (currentTool st) pan then []
  else
    let point := getCanvasPoint st e in
    [ setPointerCapture (pointerId e);
      setIsDrawing true;
      setCurrentPath (fun _ => Some (Some (DrawingPath.mk
        (toString now)
        [point]
        (if Tool_eqb (currentTool st) eraser then "#ffffff"%string
         else if Tool_eqb (currentTool st) highlighter
              then (color st ++ "50")%string
              else color st)
        (if Tool_eqb (currentTool st) eraser then lit 20
         else if Tool_eqb (currentTool st) highlighter then lit 15
              else width st)
        (currentTool st)
        None))) ].

(** [['pen', 'eraser', 'highlighter'].includes(currentTool)] *)
Definition freehand (t : Tool) : bool :=
  existsb (Tool_eqb t) [pen; eraser; highlighter].

Definition draw (st : State) (e : PointerEvent) : list Update :=
  if negb (isDrawing st)
     || match currentPath st with None => true | Some _ => false end
  then
    (* Panning logic *)
    if Tool_eqb (currentTool st) pan && (buttons e =? 1)%N
    then [ setViewport (Viewport.mk
             (Viewport.x (viewport st) + movementX e)
             (Viewport.y (viewport st) + movementY e)
             (Viewport.scale (viewport st))) ]
    else []
  else
    let point := getCanvasPoint st e in
    if freehand (currentTool st)
    then [ setCurrentPath (fun prev =>
             match prev with
             | Some prev =>
                 Some (Some (DrawingPath.with_points prev
                               (DrawingPath.points prev ++ [point])))
             | None => Some None
             end) ]
    else [ setCurrentPath (fun prev =>
             match prev with
             | None => Some None
             | Some prev =>
                 match DrawingPath.points prev with
                 | p0 :: _ =>
                     Some (Some (DrawingPath.with_points prev [p0; point]))
                 | [] => None      (* prev.points[0] is undefined *)
                 end
             end) ].

Definition stopDrawing (st : State) (e : PointerEvent) : list Update :=
  if negb (isDrawing st) then []
  else
    [ setIsDrawing false; releasePointerCapture (pointerId e) ]
    ++ match currentPath st with
       | Some cp => [ setPaths (paths st ++ [cp]); setCurrentPath (fun _ => Some None) ]
       | None => []
       end.

Definition handleWheel (st : State) (e : WheelEvent) : list Update :=
  let zoomIntensity := lit 0.1 in
  let direction := - Math_sign (deltaY e) in
  let delta := direction * zoomIntensity in
  let newScale :=
    Math_min (Math_max (lit 0.1) (Viewport.scale (viewport st) * (1 + delta)))
             (lit 5) in
  let mouseX := w_clientX e - w_left e in
  let mouseY := w_clientY e - w_top e in
  let worldX := (mouseX - Viewport.x (viewport st)) / Viewport.scale (viewport st) in
  let worldY := (mouseY - Viewport.y (viewport st)) / Viewport.scale (viewport st) in
  let newX := mouseX - worldX * newScale in
  let newY := mouseY - worldY * newScale in
  [ setViewport (Viewport.mk newX newY newScale) ].

Definition manualZoom (st : State) (delta : number) : list Update :=
  let newScale :=
    Math_min (Math_max (lit 0.1) (Viewport.scale (viewport st) + delta))
             (lit 5) in
  match canvasRef st with
  | Some canvas =>
      let centerX := canvas_width canvas / lit 2 in
      let centerY := canvas_height canvas / lit 2 in
      let worldX := (centerX - Viewport.x (viewport st)) / Viewport.scale (viewport st) in
      let worldY := (centerY - Viewport.y (viewport st)) / Viewport.scale (viewport st) in
      let newX := centerX - worldX * newScale in
      let newY := centerY - worldY * newScale in
      [ setViewport (Viewport.mk newX newY newScale) ]
  | None =>
      [ setViewport (Viewport.mk (Viewport.x (viewport st))
                                 (Viewport.y (viewport st)) newScale) ]
  end.

(** [value] is [parseFloat(e.target.value)]. *)
Definition handleSliderZoom (st : State) (value : number) : list Update :=
  let newScale := value in
  match canvasRef st with
  | Some canvas =>
      let centerX := canvas_width canvas / lit 2 in
      let centerY := canvas_height canvas / lit 2 in
      let worldX := (centerX - Viewport.x (viewport st)) / Viewport.scale (viewport st) in
      let worldY := (centerY - Viewport.y (viewport st)) / Viewport.scale (viewport st) in
      let newX := centerX - worldX * newScale in
      let newY := centerY - worldY * newScale in
      [ setViewport (Viewport.mk newX newY newScale) ]
  | None =>
      [ setViewport (Viewport.mk (Viewport.x (viewport st))
                                 (Viewport.y (viewport st)) newScale) ]
  end.

(** The slider is [<input type="range" min="0.1" max="5" step="0.1">], the
    only caller of [handleSliderZoom].  Such an element holds no value
    outside the range it declares: a position below [min] reads as [min], one
    above [max] as [max].  [sliderValue position] is [e.target.value] once
    parsed, for the position the thumb is moved to.  The element also rounds
    to a multiple of [step]; this is left out, so the values modelled include
    those the element delivers. *)
Definition sliderValue (position : number) : number :=
  Math_min (Math_max (lit 0.1) position) (lit 5).

(** The bindings of the JSX tree: which handler each event reaches. *)
Definition handle (st : State) (ev : Event) : list Update :=
  match ev with
  | PointerDown e now => startDrawing st e now
  | PointerMove e => draw st e
  | PointerUp e => stopDrawing st e
  | PointerLeave e => stopDrawing st e
  | Wheel w => handleWheel st w
  | ZoomOutClick => manualZoom st (- lit 0.25)
  | ZoomInClick => manualZoom st (lit 0.25)
  | SliderChange position => handleSliderZoom st (sliderValue position)
  | UndoClick => handleUndo st
  | ClearClick confirmed => handleClear st confirmed
  | ToolClick t => [setCurrentTool t]
  | ColorChange c => [setColor c]
  | WidthChange w => [setWidth w]
  end.

(** ** Meaning of the calls

    [setPaths] and [setViewport] are [updateActiveNotePaths] and
    [updateActiveNoteViewport] of [App], which replace the field of the
    active note; [onCapture] is [handleWhiteboardCapture], which stores the
    image in a cell of [App] that is not part of this state; pointer capture
    lives in the DOM. *)

Definition applyUpdate (st : State) (u : Update) : option State :=
  match u with
  | setIsDrawing b => Some (with_isDrawing st b)
  | setCurrentPath f =>
      match f (currentPath st) with
      | Some p => Some (with_currentPath st p)
      | None => None
      end
  | setCurrentTool t => Some (with_currentTool st t)
  | setColor c => Some (with_color st c)
  | setWidth w => Some (with_width st w)
  | setPaths l => Some (with_paths st l)
  | setViewport v => Some (with_viewport st v)
  | onCapture _ => Some st
  | setPointerCapture _ => Some st
  | releasePointerCapture _ => Some st
  end.

Fixpoint applyUpdates (st : State) (us : list Update) : option State :=
  match us with
  | [] => Some st
  | u :: us' =>
      match applyUpdate st u with
      | Some st' => applyUpdates st' us'
      | None => None
      end
  end.

Definition step (st : State) (ev : Event) : option State :=
  applyUpdates st (handle st ev).

Fixpoint run (st : State) (evs : list Event) : option State :=
  match evs with
  | [] => Some st
  | ev :: evs' =>
      match step st ev with
      | Some st' => run st' evs'
      | None => None
      end
  end.

(** The state [App] starts a note with ([initialNoteContent], no [readOnly]
    prop) and the [useState] defaults of the component. *)
Definition initialState (canvas : option Canvas) : State :=
  mkState [] (Viewport.mk 0 0 1) false canvas false pen "#000000" (lit 2) None.

(** ** Coordinate transform

    The logical point under a screen point (given relative to the canvas
    origin): the expression of [getCanvasPoint], and of [worldX], [worldY]
    in the three zoom handlers. *)
Definition screenToLogical (ax ay : number) (v : Viewport.t) : number * number :=
  ((ax - Viewport.x v) / Viewport.scale v, (ay - Viewport.y v) / Viewport.scale v).

(** The viewport the zoom handlers build from an anchor and a new scale. *)
Definition zoomAtPoint (v : Viewport.t) (ax ay s' : number) : Viewport.t :=
  let world := screenToLogical ax ay v in
  Viewport.mk (ax - fst world * s') (ay - snd world * s') s'.

(** A scale within the limits of the zoom handlers. *)
Definition in_limits (s : number) : Prop := lit 0.1 <= s /\ s <= lit 5.

(** The scale [handleWheel] and [manualZoom] settle on. *)
Definition wheelScale (s dY : number) : number :=
  Math_min (Math_max (lit 0.1) (s * (1 + (- Math_sign dY) * lit 0.1))) (lit 5).
Definition manualScale (s delta : number) : number :=
  Math_min (Math_max (lit 0.1) (s + delta)) (lit 5).

(** ** Strokes

    The object literal [startDrawing] hands to [setCurrentPath]. *)
Definition seedPath (st : State) (e : PointerEvent) (now : N) : DrawingPath.t :=
  DrawingPath.mk
    (toString now)
    [getCanvasPoint st e]
    (if Tool_eqb (currentTool st) eraser then "#ffffff"%string
     else if Tool_eqb (currentTool st) highlighter
          then (color st ++ "50")%string
          else color st)
    (if Tool_eqb (currentTool st) eraser then lit 20
     else if Tool_eqb (currentTool st) highlighter then lit 15
          else width st)
    (currentTool st)
    None.

(** [['rectangle', 'circle', 'line'].includes(tool)] *)
Definition is_shape (t : Tool) : bool :=
  existsb (Tool_eqb t) [rectangle; circle; line].

(** A pointer sample in logical coordinates, in the words of the
    specification: (screen - viewport offset) / scale, the screen position
    being taken relative to the canvas. *)
Definition logicalSample (c : Canvas) (v : Viewport.t) (e : PointerEvent)
  : Point.t :=
  Point.mk (fst (screenToLogical (clientX e - rect_left c) (clientY e - rect_top c) v))
           (snd (screenToLogical (clientX e - rect_left c) (clientY e - rect_top c) v))
           (Some (e_pressure e)).

(** The viewport moved by the raw movement of a pointer event. *)
Definition translated (v : Viewport.t) (e : PointerEvent) : Viewport.t :=
  Viewport.mk (Viewport.x v + movementX e) (Viewport.y v + movementY e)
              (Viewport.scale v).

(** The state after a pointer-up that commits the stroke [p]. *)
Definition committed (st : State) (p : DrawingPath.t) : State :=
  with_currentPath (with_paths (with_isDrawing st false) (paths st ++ [p])) None.

(** The in-progress stroke, when there is one, holds at least one point. *)
Definition seeded (st : State) : Prop :=
  forall cp, currentPath st = Some cp -> DrawingPath.points cp <> [].

(** ** Classes of events and state invariants *)

Definition is_pointer (ev : Event) : bool :=
  match ev with
  | PointerDown _ _ | PointerMove _ | PointerUp _ | PointerLeave _ => true
  | _ => false
  end.

(** Events that edit the committed log by other means than drawing. *)
Definition edits_log (ev : Event) : bool :=
  match ev with UndoClick | ClearClick _ => true | _ => false end.

(** Events that can reach the component between the pointer-down and the
    pointer-up of one stroke without beginning or ending a stroke. *)
Definition mid_stroke (ev : Event) : bool :=
  match ev with
  | PointerMove _ | Wheel _ | ZoomOutClick | ZoomInClick | SliderChange _
  | ToolClick _ | ColorChange _ | WidthChange _ => true
  | _ => false
  end.

(** The primary button is held: bit 0 of [MouseEvent.buttons].  Other
    buttons may be held with it; [buttons = 1] is the primary button alone. *)
Definition primaryHeld (e : PointerEvent) : bool := N.testbit (buttons e) 0.

(** A slider event whose position lies in the range the input element
    declares. *)
Definition slider_within (ev : Event) : Prop :=
  match ev with SliderChange position => in_limits position | _ => True end.

(** The drawing flag is set exactly when a stroke is in progress. *)
Definition in_sync (st : State) : Prop :=
  isDrawing st = true <-> currentPath st <> None.

(** The movement summed over the pointer moves made with the primary button
    held. *)
Fixpoint heldMovementX (evs : list Event) : number :=
  match evs with
  | [] => 0
  | PointerMove e :: evs' =>
      (if (buttons e =? 1)%N then movementX e else 0) + heldMovementX evs'
  | _ :: evs' => heldMovementX evs'
  end.

Fixpoint heldMovementY (evs : list Event) : number :=
  match evs with
  | [] => 0
  | PointerMove e :: evs' =>
      (if (buttons e =? 1)%N then movementY e else 0) + heldMovementY evs'
  | _ :: evs' => heldMovementY evs'
  end.

(** Two strokes that differ in their points at most. *)
Definition same_style (p q : DrawingPath.t) : Prop :=
  DrawingPath.id p = DrawingPath.id q
  /\ DrawingPath.color p = DrawingPath.color q
  /\ DrawingPath.width p = DrawingPath.width q
  /\ DrawingPath.tool p = DrawingPath.tool q
  /\ DrawingPath.isFilled p = DrawingPath.isFilled q.

(** ** Rendering ([drawPath] and the paint loop of the render effect)

    The calls made on the 2D context and the assignments to its properties,
    in the order the code makes them. *)

Inductive CanvasOp : Type :=
| beginPath
| moveTo (x y : number)
| lineTo (x y : number)
| stroke
| strokeRect (x y w h : number)
| arc (x y radius startAngle endAngle : number)
| set_lineCap (v : string)
| set_lineJoin (v : string)
| set_strokeStyle (v : string)
| set_lineWidth (v : number)
| set_globalAlpha (v : number)
| set_globalCompositeOperation (v : string)
| clearRect (x y w h : number)
| save
| restore
| translate (x y : number)
| scale (sx sy : number)
| set_width (v : number)                       (* canvas.width = v *)
| set_height (v : number).                     (* canvas.height = v *)

Section Rendering.

(** [Math.sqrt] and [Math.PI]; their values play no part below. *)
Variable Math_sqrt : number -> number.
Variable Math_PI : number.

Definition drawPath (path : DrawingPath.t) : list CanvasOp :=
  match DrawingPath.points path with
  | [] => []                                   (* path.points.length < 1 *)
  | p0 :: rest =>
      [ beginPath; set_lineCap "round"; set_lineJoin "round";
        set_strokeStyle (DrawingPath.color path);
        set_lineWidth (DrawingPath.width path) ]
      ++
      if freehand (DrawingPath.tool path) then
        (if Tool_eqb (DrawingPath.tool path) eraser
         then [ set_globalCompositeOperation "destination-out";
                set_strokeStyle "#ffffff" ]
         else [ set_globalCompositeOperation "source-over" ])
        ++ [ moveTo (Point.x p0) (Point.y p0) ]
        ++ map (fun p => lineTo (Point.x p) (Point.y p)) rest
        ++ [ stroke; set_globalCompositeOperation "source-over" ]
      else if is_shape (DrawingPath.tool path) then
        let start := p0 in
        let end_ := last rest p0 in            (* points[points.length - 1] *)
        if Tool_eqb (DrawingPath.tool path) line then
          [ moveTo (Point.x start) (Point.y start);
            lineTo (Point.x end_) (Point.y end_); stroke ]
        else if Tool_eqb (DrawingPath.tool path) rectangle then
          [ strokeRect (Point.x start) (Point.y start)
                       (Point.x end_ - Point.x start)
                       (Point.y end_ - Point.y start) ]
        else if Tool_eqb (DrawingPath.tool path) circle then
          let radius :=
            Math_sqrt ((Point.x end_ - Point.x start) * (Point.x end_ - Point.x start)
                       + (Point.y end_ - Point.y start) * (Point.y end_ - Point.y start)) in
          [ beginPath;
            arc (Point.x start) (Point.y start) radius 0 (lit 2 * Math_PI);
            stroke ]
        else []
      else []
  end.

(** [[...paths, currentPath].forEach(path => { if (!path) return;
    drawPath(ctx, path); })] *)
Definition drawPaths (st : State) : list CanvasOp :=
  flat_map drawPath (paths st)
  ++ match currentPath st with Some path => drawPath path | None => [] end.

End Rendering.

(** ** The background grid and the render effect *)

(** [Math.trunc] of a number, as an integer, and an integer as a number. *)
Definition trunc (q : number) : Z := Z.quot (Qnum q) (Zpos (Qden q)).
Definition ofZ (z : Z) : number := Q2Qc (inject_Z z).

(** [a % b]: the remainder of the truncating division, with the sign of
    [a]; [None] is the NaN that a zero divisor yields. *)
Definition rem (a b : number) : option number :=
  if Qeq_bool b 0 then None else Some (a - b * ofZ (trunc (a / b))).

(** [for (let x = start; x < limit; x += step) ...]: the values of [x] the
    body runs with.  [fuel] bounds the number of rounds; [None] stands for a
    loop that has not ended within it.

    The sum [x + step] is exact here, so a positive step always advances.
    In binary64 a step far below the spacing of the numbers around [x] leaves
    [x] as it is (512 + 4e-14 is 512), and the loop of the source then does
    not end.  The exact loop stands for the loop of the source only where
    the step is large against the limit: [drawGrid] is called with the size
    of the canvas ([canvas_dimension]), so a scale within [0.1, 5], which
    makes the step 4 or more, is enough. *)
Fixpoint gridLoop (fuel : nat) (x limit step : number) : option (list number) :=
  if ltb x limit then
    match fuel with
    | O => None
    | S fuel' =>
        match gridLoop fuel' (x + step) limit step with
        | Some xs => Some (x :: xs)
        | None => None
        end
    end
  else Some [].

(** [canvas.width] and [canvas.height], the limits [drawGrid] is called
    with, are unsigned 32-bit integers of the DOM. *)
Definition canvas_dimension (d : number) : Prop :=
  0 <= d /\ d <= lit 4294967295.

(** The loop variable after [n] rounds of [x += step]. *)
Definition advance (x step : number) (n : nat) : number :=
  Nat.iter n (fun y => y + step) x.

(** The two loops of [drawGrid]: the positions of the vertical and of the
    horizontal lines.  A NaN start compares false with every limit, so the
    loops do not run. *)
Definition gridColumns (fuel : nat) (w : number) (vp : Viewport.t)
  : option (list number) :=
  match rem (Viewport.x vp) (lit 40 * Viewport.scale vp) with
  | Some offsetX => gridLoop fuel offsetX w (lit 40 * Viewport.scale vp)
  | None => Some []
  end.

Definition gridRows (fuel : nat) (h : number) (vp : Viewport.t)
  : option (list number) :=
  match rem (Viewport.y vp) (lit 40 * Viewport.scale vp) with
  | Some offsetY => gridLoop fuel offsetY h (lit 40 * Viewport.scale vp)
  | None => Some []
  end.

Definition drawGrid (fuel : nat) (w h : number) (vp : Viewport.t)
  : option (list CanvasOp) :=
  let gridSize := lit 40 * Viewport.scale vp in
  match gridColumns fuel w vp, gridRows fuel h vp with
  | Some xs, Some ys =>
      Some ([ beginPath; set_strokeStyle "#e2e8f0"; set_lineWidth 1;
              set_globalAlpha (if ltb gridSize (lit 10) then lit 0.2 else 1) ]
            ++ flat_map (fun x => [moveTo x 0; lineTo x h]) xs
            ++ flat_map (fun y => [moveTo 0 y; lineTo w y]) ys
            ++ [ stroke; set_globalAlpha 1 ])
  | _, _ => None
  end.

(** The transformation the render effect puts the strokes under. *)
Definition viewTransform (vp : Viewport.t) : list CanvasOp :=
  [ translate (Viewport.x vp) (Viewport.y vp);
    scale (Viewport.scale vp) (Viewport.scale vp) ].

(** Where a point given in the coordinates of the strokes lands on the
    canvas under transformations issued in the order of [ops]: each one
    applies to the coordinates that follow it, so the last issued acts
    first. *)
Definition toScreen (ops : list CanvasOp) (p : number * number)
  : number * number :=
  fold_right
    (fun op q =>
       match op with
       | translate x y => (fst q + x, snd q + y)
       | scale sx sy => (fst q * sx, snd q * sy)
       | _ => q
       end)
    p ops.

Section RenderEffect.

Variable Math_sqrt : number -> number.
Variable Math_PI : number.

(** The render effect.  [parent] is the client size of the parent element,
    if the canvas has one, and [ctx] tells whether [getContext('2d')] gives
    a context. *)
Definition render (fuel : nat) (parent : option (number * number)) (ctx : bool)
    (st : State) : option (list CanvasOp) :=
  match canvasRef st with
  | None => Some []
  | Some canvas =>
      if negb ctx then Some []
      else
        let width := match parent with
                     | Some (pw, _) => pw
                     | None => canvas_width canvas
                     end in
        let height := match parent with
                      | Some (_, ph) => ph
                      | None => canvas_height canvas
                      end in
        match drawGrid fuel width height (viewport st) with
        | None => None
        | Some grid =>
            Some (match parent with
                  | Some (pw, ph) => [set_width pw; set_height ph]
                  | None => []
                  end
                  ++ [clearRect 0 0 width height]
                  ++ grid
                  ++ [save] ++ viewTransform (viewport st)
                  ++ drawPaths Math_sqrt Math_PI st
                  ++ [restore])
        end
  end.

End RenderEffect.

(** The composite mode in force after a sequence of context operations that
    began in mode [mode]. *)
Definition modeAfter (ops : list CanvasOp) (mode : string) : string :=
  fold_left (fun m op =>
               match op with set_globalCompositeOperation v => v | _ => m end)
            ops mode.

(** Each painting call ([stroke], [strokeRect]) of a sequence of operations
    with the composite mode it is made in. *)
Fixpoint paintModes (ops : list CanvasOp) (mode : string) : list string :=
  match ops with
  | [] => []
  | set_globalCompositeOperation v :: ops' => paintModes ops' v
  | stroke :: ops' => mode :: paintModes ops' mode
  | strokeRect _ _ _ _ :: ops' => mode :: paintModes ops' mode
  | _ :: ops' => paintModes ops' mode
  end.


(** The composite mode a stroke is meant to be painted in. *)
Definition ownMode (path : DrawingPath.t) : string :=
  if Tool_eqb (DrawingPath.tool path) eraser
  then "destination-out" else "source-over".

(** Whether [drawPath] paints anything for a stroke. *)
Definition painted (path : DrawingPath.t) : bool :=
  match DrawingPath.points path with
  | [] => false
  | _ :: _ => freehand (DrawingPath.tool path) || is_shape (DrawingPath.tool path)
  end.

(** ** The host: [App] and the types of the note catalog

    A JavaScript object used as a map ([Record<string, T>]) is a list of
    entries with distinct keys.  Nothing below depends on the order of the
    entries. *)

Module Obj.

Definition t (V : Type) : Type := list (string * V).

(** [o[k]] *)
Fixpoint get {V : Type} (k : string) (o : t V) : option V :=
  match o with
  | [] => None
  | (k', v) :: o' => if String.eqb k' k then Some v else get k o'
  end.

(** [{ ...o, [k]: v }] *)
Fixpoint set {V : Type} (k : string) (v : V) (o : t V) : t V :=
  match o with
  | [] => [(k, v)]
  | (k', v') :: o' =>
      if String.eqb k' k then (k, v) :: o' else (k', v') :: set k v o'
  end.

(** [delete o[k]] *)
Definition delete {V : Type} (k : string) (o : t V) : t V :=
  filter (fun e => negb (String.eqb (fst e) k)) o.

(** [Object.values(o)] *)
Definition values {V : Type} (o : t V) : list V := map snd o.

End Obj.

Inductive FileType : Type := folder | note.

Module FileSystemNode.
Record t : Type := mk {
  id : string;
  parentId : option string;
  name : string;
  type : FileType;
  children : option (list string);
  createdAt : N;
  updatedAt : N
}.
End FileSystemNode.

Module Attachment.
Record t : Type := mk { mimeType : string; data : string }.
End Attachment.

Inductive Role : Type := user | model.

Module ChatMessage.
Record t : Type := mk {
  id : string;
  role : Role;
  text : string;
  timestamp : N;
  attachments : option (list Attachment.t)
}.
End ChatMessage.

Module NoteContent.
Record t : Type := mk {
  id : string;
  messages : list ChatMessage.t;
  paths : list DrawingPath.t;
  viewport : Viewport.t
}.
End NoteContent.

(** The [useState] cells of [App]. *)
Module App.
Record t : Type := mk {
  fileSystem : Obj.t FileSystemNode.t;
  notes : Obj.t NoteContent.t;
  activeNoteId : option string;
  expandedFolders : list string;
  darkMode : bool;
  capturedImage : option string
}.
End App.

Definition INITIAL_ROOT_ID : string := "root-folder".
Definition INITIAL_NOTE_ID : string := "welcome-note".

(** [n.parentId === nodeId] *)
Definition parent_is (n : FileSystemNode.t) (nodeId : string) : bool :=
  match FileSystemNode.parentId n with
  | Some p => String.eqb p nodeId
  | None => false
  end.

(** [handleCreateNode]; [now], [now1] and [now2] are the three successive
    readings of [Date.now()].  [parentId || INITIAL_ROOT_ID] falls back to
    the root for [null] and for the empty string. *)
Definition handleCreateNode (ty : FileType) (parentId : option string)
    (now now1 now2 : N) (app : App.t) : App.t :=
  let pid := match parentId with
             | None => INITIAL_ROOT_ID
             | Some EmptyString => INITIAL_ROOT_ID
             | Some p => p
             end in
  let id := toString now in
  let newNode :=
    FileSystemNode.mk id (Some pid)
      (match ty with folder => "New Folder" | note => "New Note" end)
      ty None now1 now2 in
  let fs := Obj.set id newNode (App.fileSystem app) in
  match ty with
  | note =>
      App.mk fs
        (Obj.set id (NoteContent.mk id [] [] (Viewport.mk 0 0 1)) (App.notes app))
        (Some id) (App.expandedFolders app) (App.darkMode app)
        (App.capturedImage app)
  | folder =>
      App.mk fs (App.notes app) (App.activeNoteId app)
        (App.expandedFolders app ++ [id]) (App.darkMode app)
        (App.capturedImage app)
  end.

(** [deleteRecursive] of [handleDeleteNode], on the copies [newFS] and
    [newNotes] it mutates.  The recursion follows the parent links of the
    catalog; [fuel] bounds its depth and [None] stands for a recursion that
    does not end within it. *)
Fixpoint deleteRecursive (fuel : nat) (nodeId : string)
    (s : Obj.t FileSystemNode.t * Obj.t NoteContent.t)
  : option (Obj.t FileSystemNode.t * Obj.t NoteContent.t) :=
  match fuel with
  | O => None
  | S fuel' =>
      match
        fold_left
          (fun acc n =>
             match acc with
             | None => None
             | Some s' =>
                 if parent_is n nodeId
                 then deleteRecursive fuel' (FileSystemNode.id n) s'
                 else Some s'
             end)
          (Obj.values (fst s)) (Some s)
      with
      | None => None
      | Some (newFS, newNotes) =>
          Some (Obj.delete nodeId newFS, Obj.delete nodeId newNotes)
      end
  end.

(** [handleDeleteNode]; [confirmed] is the answer of [confirm]. *)
Definition handleDeleteNode (fuel : nat) (id : string) (confirmed : bool)
    (app : App.t) : option App.t :=
  if String.eqb id INITIAL_ROOT_ID then Some app
  else
    match Obj.get id (App.fileSystem app) with
    | None => Some app
    | Some _ =>
        if confirmed then
          match deleteRecursive fuel id (App.fileSystem app, App.notes app) with
          | None => None
          | Some (newFS, newNotes) =>
              Some (App.mk newFS newNotes
                      (match App.activeNoteId app with
                       | Some a => if String.eqb a id then None else Some a
                       | None => None
                       end)
                      (App.expandedFolders app) (App.darkMode app)
                      (App.capturedImage app))
          end
        else Some app
    end.

(** [handleToggleFolder], as the updater of [expandedFolders]. *)
Definition handleToggleFolder (id : string) (prev : list string) : list string :=
  if existsb (String.eqb id) prev
  then filter (fun fid => negb (String.eqb fid id)) prev
  else prev ++ [id].

(** [updateActiveNotePaths], [updateActiveNoteViewport] and
    [updateActiveNoteMessages]: the callbacks handed to [Whiteboard] and
    [Chat].  [!activeNoteId] holds for [null] and for the empty string.
    [None] stands for a result that is not a [NoteContent]: the spread of
    [prev[activeNoteId]] when the active note has no content. *)
Definition updateActiveNote (f : NoteContent.t -> NoteContent.t) (app : App.t)
  : option App.t :=
  match App.activeNoteId app with
  | None => Some app
  | Some EmptyString => Some app
  | Some a =>
      match Obj.get a (App.notes app) with
      | Some prev =>
          Some (App.mk (App.fileSystem app) (Obj.set a (f prev) (App.notes app))
                       (App.activeNoteId app) (App.expandedFolders app)
                       (App.darkMode app) (App.capturedImage app))
      | None => None
      end
  end.

Definition updateActiveNotePaths (paths : list DrawingPath.t) : App.t -> option App.t :=
  updateActiveNote (fun prev =>
    NoteContent.mk (NoteContent.id prev) (NoteContent.messages prev) paths
                   (NoteContent.viewport prev)).

Definition updateActiveNoteViewport (viewport : Viewport.t) : App.t -> option App.t :=
  updateActiveNote (fun prev =>
    NoteContent.mk (NoteContent.id prev) (NoteContent.messages prev)
                   (NoteContent.paths prev) viewport).

Definition updateActiveNoteMessages (messages : list ChatMessage.t)
  : App.t -> option App.t :=
  updateActiveNote (fun prev =>
    NoteContent.mk (NoteContent.id prev) messages (NoteContent.paths prev)
                   (NoteContent.viewport prev)).

(** A node [k] lies in the subtree of [root]: it is [root] or its parent
    does. *)
Inductive descends (fs : Obj.t FileSystemNode.t) (root : string)
  : string -> Prop :=
| descends_self : descends fs root root
| descends_child (k : string) (n : FileSystemNode.t) (p : string) :
    In (k, n) fs -> FileSystemNode.parentId n = Some p ->
    descends fs root p -> descends fs root k.

(** Every entry is filed under the identifier of its node. *)
Definition keyed (fs : Obj.t FileSystemNode.t) : Prop :=
  forall k n, In (k, n) fs -> FileSystemNode.id n = k.

(** The subtree of [nodeId] is at most [h] levels deep. *)
Fixpoint shallow (fs : Obj.t FileSystemNode.t) (h : nat) (nodeId : string)
  : Prop :=
  match h with
  | O => False
  | S h' =>
      forall k n, In (k, n) fs ->
                  FileSystemNode.parentId n = Some nodeId -> shallow fs h' k
  end.

(** Some node of [done] is a child of [nodeId] and has [k] in its
    subtree. *)
Definition under (fs : Obj.t FileSystemNode.t) (done : list FileSystemNode.t)
    (nodeId k : string) : Prop :=
  exists n, In n done /\ parent_is n nodeId = true
            /\ descends fs (FileSystemNode.id n) k.

(** ** The chat side: attachments and the prompt sent to the tutor *)

(** [s.split(',')]: the pieces of [s] between its commas (one piece when
    there is no comma, never none). *)
Fixpoint splitComma (s : string) : list string :=
  match s with
  | EmptyString => [EmptyString]
  | String c rest =>
      if Ascii.eqb c ","%char then EmptyString :: splitComma rest
      else match splitComma rest with
           | piece :: pieces => String c piece :: pieces
           | [] => [String c EmptyString]
           end
  end.

(** [pendingAttachment.split(',')[1]], [undefined] being [None]. *)
Definition base64Data (dataUrl : string) : option string :=
  nth_error (splitComma dataUrl) 1.

(** The effect of [Chat] on [pendingAttachment]: the attachment it stores,
    if it stores one (a missing or empty pending value is skipped; a data
    field that would be [undefined] is [None]). *)
Definition receivePending (pendingAttachment : option string)
  : option (string * option string) :=
  match pendingAttachment with
  | None => None
  | Some EmptyString => None
  | Some url => Some ("image/png"%string, base64Data url)
  end.

(** The [src] of the image [Chat] renders for an attachment:
    [`data:${att.mimeType};base64,${att.data}`]. *)
Definition imageSrc (att : Attachment.t) : string :=
  ("data:" ++ Attachment.mimeType att ++ ";base64," ++ Attachment.data att)%string.

Definition hasComma (s : string) : bool :=
  existsb (fun c => Ascii.eqb c ","%char) (list_ascii_of_string s).

(** The line feed of the template strings. *)
Definition nl : string := String (Ascii.ascii_of_nat 10) EmptyString.

Definition roleName (r : Role) : string :=
  match r with user => "user" | model => "model" end.

(** [history.slice(-10)] *)
Definition recentHistory (history : list ChatMessage.t) : list ChatMessage.t :=
  skipn (List.length history - 10) history.

(** [promptText] of [sendMessageToTutor]. *)
Definition promptText (history : list ChatMessage.t) (newMessage : string)
  : string :=
  ((if (0 <? List.length (recentHistory history))%nat
    then "Previous context:" ++ nl
         ++ String.concat nl
              (map (fun m => roleName (ChatMessage.role m) ++ ": " ++ ChatMessage.text m)
                   (recentHistory history))
         ++ nl ++ nl
    else "")
   ++ "User: " ++ newMessage)%string.

Inductive Part : Type :=
| textPart (text : string)
| inlineData (mimeType data : string).

(** [parts] of [sendMessageToTutor]. *)
Definition requestParts (history : list ChatMessage.t) (newMessage : string)
    (imageAttachment : option Attachment.t) : list Part :=
  match imageAttachment with
  | Some att =>
      inlineData (Attachment.mimeType att) (Attachment.data att)
      :: [textPart (promptText history newMessage)]
  | None => [textPart (promptText history newMessage)]
  end.

(** How the call to the model ends: a response with its [text], or an
    exception with its [message] (either may be missing or empty). *)
Inductive Outcome : Type :=
| responded (text : option string)
| threw (message : option string).

(** [a || b] on an optional string. *)
Definition orElse (a : option string) (b : string) : string :=
  match a with
  | Some (String c r) => String c r
  | _ => b
  end.

(** [sendMessageToTutor]: [apiKey] is [process.env.API_KEY] and [generate]
    stands for [ai.models.generateContent], reached only with a key (the
    construction of the client is taken to succeed). *)
Definition sendMessageToTutor (apiKey : option string)
    (generate : list Part -> Outcome)
    (history : list ChatMessage.t) (newMessage : string)
    (imageAttachment : option Attachment.t) : string :=
  match apiKey with
  | None | Some EmptyString => "Error: API Key not configured."
  | Some _ =>
      match generate (requestParts history newMessage imageAttachment) with
      | responded text =>
          orElse text "I couldn't generate a response. Please try again."
      | threw message =>
          ("Error: " ++ orElse message "Something went wrong with the AI service.")%string
      end
  end.

(** The cells of [Chat] that [handleSend] reads and writes. *)
Module Chat.
Record t : Type := mk {
  messages : list ChatMessage.t;
  input : string;
  attachment : option Attachment.t;
  isLoading : bool
}.
End Chat.

(** [handleSend], from the click to the end of the asynchronous call: the
    state once the reply has arrived, no other event having come in
    between.  [blank] tells whether [input.trim()] is empty; [now] to [now3]
    are the successive readings of [Date.now()]. *)
Definition handleSend (apiKey : option string) (generate : list Part -> Outcome)
    (blank : bool) (now now1 now2 now3 : N) (st : Chat.t) : Chat.t :=
  if (blank && match Chat.attachment st with None => true | Some _ => false end)
     || Chat.isLoading st
  then st
  else
    let userMsg :=
      ChatMessage.mk (toString now) user (Chat.input st) now1
        (match Chat.attachment st with
         | Some a => Some [a]
         | None => None
         end) in
    let updatedMessages := Chat.messages st ++ [userMsg] in
    let currentAttachment := Chat.attachment st in
    let aiResponseText :=
      sendMessageToTutor apiKey generate updatedMessages
        (ChatMessage.text userMsg) currentAttachment in
    let aiMsg :=
      ChatMessage.mk (toString (now2 + 1)) model aiResponseText now3 None in
    Chat.mk (updatedMessages ++ [aiMsg]) "" None false.

(** ** Sample data used by the closed examples *)

Definition canvas0 : Canvas :=
  {| rect_left := 0; rect_top := 0;
     canvas_width := lit 800; canvas_height := lit 600 |}.

Definition wheelIn : WheelEvent :=
  {| w_clientX := lit 300; w_clientY := lit 200; deltaY := lit (-120);
     w_left := 0; w_top := 0 |}.

Definition zoomedIn : State :=
  with_viewport (initialState (Some canvas0))
                (Viewport.mk (lit 100) (lit 50) (lit 5)).

Definition down0 : PointerEvent :=
  {| clientX := lit 10; clientY := lit 20; e_pressure := lit 0.5; buttons := 1;
     movementX := 0; movementY := 0; pointerId := 1 |}.

Definition move1 : PointerEvent :=
  {| clientX := lit 13; clientY := lit 24; e_pressure := lit 0.5; buttons := 1;
     movementX := lit 3; movementY := lit 4; pointerId := 1 |}.

Definition move2 : PointerEvent :=
  {| clientX := lit 30; clientY := lit 40; e_pressure := lit 0.5; buttons := 1;
     movementX := lit 17; movementY := lit 16; pointerId := 1 |}.

(** A move with the primary and the secondary button held. *)
Definition moveBoth : PointerEvent :=
  {| clientX := lit 13; clientY := lit 24; e_pressure := lit 0.5; buttons := 3;
     movementX := lit 3; movementY := lit 4; pointerId := 1 |}.

Definition up0 : PointerEvent :=
  {| clientX := lit 30; clientY := lit 40; e_pressure := 0; buttons := 0;
     movementX := 0; movementY := 0; pointerId := 1 |}.

Definition t0 : N := 1700000000000.

Definition penIdle : State := initialState (Some canvas0).
Definition rectIdle : State := with_currentTool penIdle rectangle.
Definition panIdle : State := with_currentTool penIdle pan.
Definition readOnlyIdle : State := with_readOnly penIdle true.

(** A pen stroke is in progress and the pan tool has been selected since. *)
Definition midStroke : State :=
  with_currentTool
    (with_currentPath (with_isDrawing penIdle true)
                      (Some (seedPath penIdle down0 t0)))
    pan.

Definition strokeA : DrawingPath.t :=
  DrawingPath.mk "1" [Point.mk 0 0 None] "#000000" (lit 2) pen None.
Definition strokeB : DrawingPath.t :=
  DrawingPath.mk "2" [Point.mk 1 1 None] "#ff0000" (lit 2) line None.
Definition strokeC : DrawingPath.t :=
  DrawingPath.mk "3" [Point.mk 0 1 None] "#ffffff" (lit 20) eraser None.

Definition threeStrokes : State := with_paths penIdle [strokeA; strokeB; strokeC].

(** The scenarios of the specification. *)
Definition scenarioViewport : State :=
  with_viewport penIdle (Viewport.mk (lit 100) (lit 50) (lit 2)).

Definition wheelAtOrigin : WheelEvent :=
  {| w_clientX := lit 100; w_clientY := lit 50; deltaY := lit (-100);
     w_left := 0; w_top := 0 |}.

Definition at_ (cx cy : Q) : PointerEvent :=
  {| clientX := lit cx; clientY := lit cy; e_pressure := lit 0.5; buttons := 1;
     movementX := 0; movementY := 0; pointerId := 1 |}.

Definition wheelOut : WheelEvent :=
  {| w_clientX := lit 300; w_clientY := lit 200; deltaY := lit 120;
     w_left := 0; w_top := 0 |}.

Definition wheelFlat : WheelEvent :=
  {| w_clientX := lit 300; w_clientY := lit 200; deltaY := 0;
     w_left := 0; w_top := 0 |}.


Definition rectStroke : DrawingPath.t :=
  DrawingPath.mk "5" [Point.mk 0 0 None; Point.mk (lit 2) (lit 7) None;
                      Point.mk (lit 4) (lit 3) None]
                 "#0000ff" (lit 2) rectangle None.

Definition node0 (id : string) (parent : option string) (ty : FileType)
  : FileSystemNode.t :=
  FileSystemNode.mk id parent "n" ty None 0 0.

Definition note0 (id : string) : NoteContent.t :=
  NoteContent.mk id [] [] (Viewport.mk 0 0 1).

(** The initial catalog of [App] with a folder ["100"] that holds the notes
    ["101"] and ["102"]; ["102"] is the active note. *)
Definition catalog : App.t :=
  App.mk
    [ (INITIAL_ROOT_ID, node0 INITIAL_ROOT_ID None folder);
      (INITIAL_NOTE_ID, node0 INITIAL_NOTE_ID (Some INITIAL_ROOT_ID) note);
      ("100"%string, node0 "100" (Some INITIAL_ROOT_ID) folder);
      ("101"%string, node0 "101" (Some "100"%string) note);
      ("102"%string, node0 "102" (Some "100"%string) note) ]
    [ (INITIAL_NOTE_ID, note0 INITIAL_NOTE_ID);
      ("101"%string, note0 "101"); ("102"%string, note0 "102") ]
    (Some "102"%string) [INITIAL_ROOT_ID; "100"%string] false None.

Definition pngAttachment : Attachment.t :=
  Attachment.mk "image/png" "iVBORw0KGgo=".

Definition askOnce : Chat.t :=
  Chat.mk [ChatMessage.mk "1" model "Hello!" 1 None] "What is 2+2?" None false.

(** * Properties *)

(** ** Numbers *)

Lemma leb_true (a b : number) : leb a b = true -> a <= b.
Proof. unfold leb, Qcle. apply Qle_bool_imp_le. Qed.

Lemma leb_false (a b : number) : leb a b = false -> b <= a.
Proof.
  unfold leb, Qcle. intros H. apply Qlt_le_weak, Qnot_le_lt.
  intros L. apply Qle_bool_iff in L. congruence.
Qed.

Lemma ltb_true (a b : number) : a < b -> ltb a b = true.
Proof.
  unfold ltb, Qclt. intros H. destruct (Qle_bool b a) eqn:E; [|reflexivity].
  apply Qle_bool_imp_le in E. exfalso. exact (Qlt_not_le _ _ H E).
Qed.

Lemma ltb_false (a b : number) : b < a -> ltb a b = false.
Proof.
  unfold ltb, Qclt. intros H. destruct (Qle_bool b a) eqn:E; [reflexivity|].
  exfalso. apply Qlt_le_weak, Qle_bool_iff in H. congruence.
Qed.

Lemma Math_sign_neg (a : number) : a < 0 -> Math_sign a = Qcopp 1.
Proof. intros H. unfold Math_sign. now rewrite (ltb_true _ _ H). Qed.

Lemma Math_sign_pos (a : number) : 0 < a -> Math_sign a = 1.
Proof.
  intros H. unfold Math_sign. now rewrite (ltb_false _ _ H), (ltb_true _ _ H).
Qed.

Lemma clamp_in_limits (s : number) :
  in_limits (Math_min (Math_max (lit 0.1) s) (lit 5)).
Proof.
  assert (B : lit 0.1 <= lit 5) by (apply leb_true; reflexivity).
  unfold in_limits, Math_min, Math_max.
  destruct (leb (lit 0.1) s) eqn:E1.
  - apply leb_true in E1.
    destruct (leb s (lit 5)) eqn:E2; split; auto using leb_true, Qcle_refl.
  - destruct (leb (lit 0.1) (lit 5)) eqn:E2; split; auto using Qcle_refl.
Qed.

Lemma in_limits_nonzero (s : number) : in_limits s -> s <> 0.
Proof.
  intros [L _] ->. revert L. apply Qclt_not_le. reflexivity.
Qed.

Lemma anchor_kept (a s w : number) :
  s <> 0 -> (a - (a - w * s)) / s = w.
Proof. intros H. field. exact H. Qed.

(** ** Zoom handlers *)

Lemma handleWheel_eq (st : State) (e : WheelEvent) :
  handleWheel st e =
  [ setViewport (zoomAtPoint (viewport st)
                   (w_clientX e - w_left e) (w_clientY e - w_top e)
                   (wheelScale (Viewport.scale (viewport st)) (deltaY e))) ].
Proof. reflexivity. Qed.

Lemma manualZoom_eq (st : State) (c : Canvas) (delta : number) :
  canvasRef st = Some c ->
  manualZoom st delta =
  [ setViewport (zoomAtPoint (viewport st)
                   (canvas_width c / lit 2) (canvas_height c / lit 2)
                   (manualScale (Viewport.scale (viewport st)) delta)) ].
Proof. intros H. unfold manualZoom. rewrite H. reflexivity. Qed.

Lemma handleSliderZoom_eq (st : State) (c : Canvas) (value : number) :
  canvasRef st = Some c ->
  handleSliderZoom st value =
  [ setViewport (zoomAtPoint (viewport st)
                   (canvas_width c / lit 2) (canvas_height c / lit 2) value) ].
Proof. intros H. unfold handleSliderZoom. rewrite H. reflexivity. Qed.

Lemma wheelScale_in_limits (s dY : number) : in_limits (wheelScale s dY).
Proof. apply clamp_in_limits. Qed.

Lemma manualScale_in_limits (s delta : number) : in_limits (manualScale s delta).
Proof. apply clamp_in_limits. Qed.

Lemma zoomAtPoint_anchor (v : Viewport.t) (ax ay s' : number) :
  s' <> 0 ->
  screenToLogical ax ay (zoomAtPoint v ax ay s') = screenToLogical ax ay v.
Proof.
  intros H. unfold zoomAtPoint, screenToLogical. cbn.
  now rewrite !anchor_kept.
Qed.

Lemma zoomAtPoint_same_scale (v : Viewport.t) (ax ay : number) :
  Viewport.scale v <> 0 -> zoomAtPoint v ax ay (Viewport.scale v) = v.
Proof.
  intros H. destruct v as [vx vy s]. unfold zoomAtPoint, screenToLogical.
  cbn in *. f_equal; field; exact H.
Qed.

Lemma with_viewport_same (st : State) : with_viewport st (viewport st) = st.
Proof. now destruct st. Qed.

Lemma wheelScale_top (dY : number) : dY < 0 -> wheelScale (lit 5) dY = lit 5.
Proof. intros H. unfold wheelScale. now rewrite (Math_sign_neg _ H). Qed.

Lemma wheelScale_bottom (dY : number) :
  0 < dY -> wheelScale (lit 0.1) dY = lit 0.1.
Proof. intros H. unfold wheelScale. now rewrite (Math_sign_pos _ H). Qed.

(** C2.  Every zoom entry point applies a scale within [0.1, 5], whatever
    the event and the state.  The wheel handler and the +/- buttons clamp the
    scale they compute; the slider handler applies the value of its range
    input, which the element keeps within its bounds 0.1 and 5. *)
Theorem zoom_scale_limits (st : State) :
  (forall e, exists v',
      handle st (Wheel e) = [setViewport v'] /\
      step st (Wheel e) = Some (with_viewport st v') /\
      in_limits (Viewport.scale v'))
  /\ (forall delta, exists v',
      manualZoom st delta = [setViewport v'] /\
      applyUpdates st (manualZoom st delta) = Some (with_viewport st v') /\
      in_limits (Viewport.scale v'))
  /\ (forall position, exists v',
      handle st (SliderChange position) = [setViewport v'] /\
      step st (SliderChange position) = Some (with_viewport st v') /\
      in_limits (Viewport.scale v')).
Proof.
  split; [|split].
  - intros e. eexists. split; [apply handleWheel_eq|]. split.
    + unfold step; cbn [handle]. rewrite handleWheel_eq. reflexivity.
    + apply wheelScale_in_limits.
  - intros delta. unfold manualZoom.
    destruct (canvasRef st); eexists; (split; [reflexivity|]);
      (split; [reflexivity|]); apply clamp_in_limits.
  - intros position. unfold step; cbn [handle]. unfold handleSliderZoom.
    destruct (canvasRef st); eexists; (split; [reflexivity|]);
      (split; [reflexivity|]); apply clamp_in_limits.
Qed.

(** C3.  Zoom-at-point keeps the anchor: with [world] the logical point
    under the anchor in the old viewport, the viewport
    [(ax - world.x * s', ay - world.y * s', s')] shows the same logical point
    under the anchor, for every viewport, anchor and new scale other than 0.
    [handleWheel] (anchor: the pointer) and [manualZoom] (anchor: the canvas
    centre) build exactly this viewport, with a clamped scale, and so keep
    their anchor on every input; [handleSliderZoom] builds it with the slider
    value. *)
Theorem zoom_at_point_keeps_anchor (st : State) :
  (forall ax ay s', s' <> 0 ->
      screenToLogical ax ay (zoomAtPoint (viewport st) ax ay s')
      = screenToLogical ax ay (viewport st))
  /\ (forall e, exists v',
      handleWheel st e = [setViewport v'] /\
      screenToLogical (w_clientX e - w_left e) (w_clientY e - w_top e) v'
      = screenToLogical (w_clientX e - w_left e) (w_clientY e - w_top e)
                        (viewport st))
  /\ (forall c delta, canvasRef st = Some c -> exists v',
      manualZoom st delta = [setViewport v'] /\
      screenToLogical (canvas_width c / lit 2) (canvas_height c / lit 2) v'
      = screenToLogical (canvas_width c / lit 2) (canvas_height c / lit 2)
                        (viewport st))
  /\ (forall c value, canvasRef st = Some c -> value <> 0 -> exists v',
      handleSliderZoom st value = [setViewport v'] /\
      screenToLogical (canvas_width c / lit 2) (canvas_height c / lit 2) v'
      = screenToLogical (canvas_width c / lit 2) (canvas_height c / lit 2)
                        (viewport st)).
Proof.
  repeat split.
  - intros ax ay s' H. now apply zoomAtPoint_anchor.
  - intros e. eexists. split; [apply handleWheel_eq|].
    apply zoomAtPoint_anchor, in_limits_nonzero, wheelScale_in_limits.
  - intros c delta Hc. eexists. split; [apply (manualZoom_eq _ _ _ Hc)|].
    apply zoomAtPoint_anchor, in_limits_nonzero, manualScale_in_limits.
  - intros c value Hc Hv. eexists.
    split; [apply (handleSliderZoom_eq _ _ _ Hc)|].
    now apply zoomAtPoint_anchor.
Qed.

(** A fresh note zoomed by the slider to 2 around the centre of an
    800 x 600 canvas, and the three other parts at the same state. *)
Lemma zoom_at_point_keeps_anchor_witness :
  screenToLogical (lit 400) (lit 300)
    (zoomAtPoint (viewport (initialState (Some canvas0))) (lit 400) (lit 300) (lit 2))
  = screenToLogical (lit 400) (lit 300) (viewport (initialState (Some canvas0))).
Proof.
  apply (proj1 (zoom_at_point_keeps_anchor (initialState (Some canvas0)))).
  intros H. discriminate H.
Defined.

(** C10.  At the upper limit a wheel zoom-in, and at the lower limit a wheel
    zoom-out, leaves the viewport as it is: the clamped scale is the old
    scale and the recomputed offsets are the old offsets, so the handler
    sets the viewport it read and the state does not change. *)
Theorem wheel_fixed_at_limits (st : State) (e : WheelEvent) :
  (Viewport.scale (viewport st) = lit 5 /\ deltaY e < 0)
  \/ (Viewport.scale (viewport st) = lit 0.1 /\ 0 < deltaY e) ->
  handleWheel st e = [setViewport (viewport st)]
  /\ step st (Wheel e) = Some st.
Proof.
  intros H.
  assert (W : wheelScale (Viewport.scale (viewport st)) (deltaY e)
              = Viewport.scale (viewport st)).
  { destruct H as [[-> D] | [-> D]];
      [now apply wheelScale_top | now apply wheelScale_bottom]. }
  assert (Z : Viewport.scale (viewport st) <> 0).
  { destruct H as [[-> _] | [-> _]]; intros E; discriminate E. }
  assert (E : handleWheel st e = [setViewport (viewport st)]).
  { rewrite handleWheel_eq, W, zoomAtPoint_same_scale by exact Z. reflexivity. }
  split; [exact E|].
  unfold step; cbn [handle]. rewrite E. cbn. now rewrite with_viewport_same.
Qed.

Lemma wheel_fixed_at_limits_witness :
  handleWheel zoomedIn wheelIn = [setViewport (viewport zoomedIn)]
  /\ step zoomedIn (Wheel wheelIn) = Some zoomedIn.
Proof.
  apply wheel_fixed_at_limits. left. split; reflexivity.
Defined.

(** ** Drawing *)

Lemma Tool_eqb_eq (a b : Tool) : Tool_eqb a b = true <-> a = b.
Proof. destruct a, b; cbn; split; congruence. Qed.

Lemma Tool_eqb_neq (a b : Tool) : a <> b -> Tool_eqb a b = false.
Proof.
  intros H. destruct (Tool_eqb a b) eqn:E; [|reflexivity].
  apply Tool_eqb_eq in E. contradiction.
Qed.

Lemma is_shape_not_freehand (t : Tool) : is_shape t = true -> freehand t = false.
Proof. now destruct t. Qed.

Lemma is_shape_not_pan (t : Tool) : is_shape t = true -> t <> pan.
Proof. destruct t; cbn; congruence. Qed.

Lemma getCanvasPoint_logical (st : State) (c : Canvas) (e : PointerEvent) :
  canvasRef st = Some c ->
  getCanvasPoint st e = logicalSample c (viewport st) e.
Proof. intros H. unfold getCanvasPoint. now rewrite H. Qed.

Lemma startDrawing_eq (st : State) (e : PointerEvent) (now : N) :
  readOnly st = false -> currentTool st <> pan ->
  startDrawing st e now =
  [ setPointerCapture (pointerId e); setIsDrawing true;
    setCurrentPath (fun _ => Some (Some (seedPath st e now))) ].
Proof.
  intros R T. unfold startDrawing.
  now rewrite R, (Tool_eqb_neq _ _ T).
Qed.

Lemma step_down (st : State) (e : PointerEvent) (now : N) :
  readOnly st = false -> currentTool st <> pan ->
  step st (PointerDown e now) =
  Some (with_currentPath (with_isDrawing st true) (Some (seedPath st e now))).
Proof.
  intros R T. unfold step; cbn [handle].
  now rewrite (startDrawing_eq _ _ _ R T).
Qed.

Lemma step_move_freehand (st : State) (cp : DrawingPath.t) (e : PointerEvent) :
  isDrawing st = true -> currentPath st = Some cp ->
  freehand (currentTool st) = true ->
  step st (PointerMove e) =
  Some (with_currentPath st
          (Some (DrawingPath.with_points cp
                   (DrawingPath.points cp ++ [getCanvasPoint st e])))).
Proof.
  intros D C F. unfold step; cbn [handle]. unfold draw.
  rewrite D, C, F. cbn. now rewrite C.
Qed.

Lemma step_move_shape (st : State) (cp : DrawingPath.t) (p0 : Point.t)
      (rest : list Point.t) (e : PointerEvent) :
  isDrawing st = true -> currentPath st = Some cp ->
  freehand (currentTool st) = false ->
  DrawingPath.points cp = p0 :: rest ->
  step st (PointerMove e) =
  Some (with_currentPath st
          (Some (DrawingPath.with_points cp [p0; getCanvasPoint st e]))).
Proof.
  intros D C F P. unfold step; cbn [handle]. unfold draw.
  rewrite D, C, F. cbn. now rewrite C, P.
Qed.

Lemma draw_pan (st : State) (e : PointerEvent) :
  currentTool st = pan -> buttons e = 1%N ->
  isDrawing st = false \/ currentPath st = None ->
  draw st e = [setViewport (translated (viewport st) e)].
Proof.
  intros T B I. unfold draw. rewrite T, B.
  destruct I as [-> | ->]; [reflexivity|].
  now rewrite orb_true_r.
Qed.

Lemma step_up (st : State) (cp : DrawingPath.t) (e : PointerEvent) :
  isDrawing st = true -> currentPath st = Some cp ->
  step st (PointerUp e) = Some (committed st cp).
Proof.
  intros D C. unfold step; cbn [handle]. unfold stopDrawing.
  rewrite D, C. reflexivity.
Qed.

Lemma run_app (st : State) (a b : list Event) :
  run st (a ++ b) =
  match run st a with Some st' => run st' b | None => None end.
Proof.
  revert st. induction a as [|ev a IH]; intros st; cbn; [reflexivity|].
  destruct (step st ev); [apply IH | reflexivity].
Qed.

Lemma run_moves_freehand (es : list PointerEvent) :
  forall (st : State) (cp : DrawingPath.t),
  isDrawing st = true -> currentPath st = Some cp ->
  freehand (currentTool st) = true ->
  run st (map PointerMove es) =
  Some (with_currentPath st
          (Some (DrawingPath.with_points cp
                   (DrawingPath.points cp ++ map (getCanvasPoint st) es)))).
Proof.
  induction es as [|e es IH]; intros st cp D C F.
  - cbn. rewrite app_nil_r. destruct st, cp; cbn in *. now subst.
  - cbn [map run]. rewrite (step_move_freehand _ _ e D C F).
    set (cp' := DrawingPath.with_points cp
                  (DrawingPath.points cp ++ [getCanvasPoint st e])).
    rewrite (IH (with_currentPath st (Some cp')) cp' D eq_refl F).
    subst cp'. cbn [DrawingPath.points DrawingPath.with_points].
    rewrite <- app_assoc. reflexivity.
Qed.

Lemma run_moves_shape (es : list PointerEvent) :
  forall (st : State) (cp : DrawingPath.t) (p0 : Point.t) (rest : list Point.t)
         (e1 : PointerEvent),
  isDrawing st = true -> currentPath st = Some cp ->
  freehand (currentTool st) = false ->
  DrawingPath.points cp = p0 :: rest ->
  run st (map PointerMove (es ++ [e1])) =
  Some (with_currentPath st
          (Some (DrawingPath.with_points cp [p0; getCanvasPoint st e1]))).
Proof.
  induction es as [|e es IH]; intros st cp p0 rest e1 D C F P.
  - cbn [app map run]. now rewrite (step_move_shape _ _ _ _ e1 D C F P).
  - cbn [app map run]. rewrite (step_move_shape _ _ _ _ e D C F P).
    set (cp' := DrawingPath.with_points cp [p0; getCanvasPoint st e]).
    rewrite (IH (with_currentPath st (Some cp')) cp' p0 [getCanvasPoint st e]
                e1 D eq_refl F eq_refl).
    reflexivity.
Qed.

(** C5.  With a shape tool (rectangle, circle or line), a stroke started at
    [e0] and moved through any events [es] and then [e1] holds exactly the
    two points [anchor; current] after the last move, however many moves came
    before, and pointer-up commits the stroke with these two points. *)
Theorem shape_stroke_is_anchor_and_current
    (st : State) (e0 : PointerEvent) (now : N)
    (es : list PointerEvent) (e1 eu : PointerEvent) :
  readOnly st = false -> is_shape (currentTool st) = true ->
  let stroke := DrawingPath.with_points (seedPath st e0 now)
                  [getCanvasPoint st e0; getCanvasPoint st e1] in
  run st (PointerDown e0 now :: map PointerMove (es ++ [e1]))
  = Some (with_currentPath (with_isDrawing st true) (Some stroke))
  /\ run st (PointerDown e0 now :: map PointerMove (es ++ [e1]) ++ [PointerUp eu])
     = Some (committed st stroke)
  /\ DrawingPath.points stroke = [getCanvasPoint st e0; getCanvasPoint st e1].
Proof.
  intros R S stroke.
  pose proof (is_shape_not_pan _ S) as T.
  pose proof (is_shape_not_freehand _ S) as F.
  assert (M : run st (PointerDown e0 now :: map PointerMove (es ++ [e1]))
              = Some (with_currentPath (with_isDrawing st true) (Some stroke))).
  { cbn [run]. rewrite (step_down _ _ _ R T).
    rewrite (run_moves_shape es
               (with_currentPath (with_isDrawing st true)
                                 (Some (seedPath st e0 now)))
               (seedPath st e0 now) (getCanvasPoint st e0) []
               e1 eq_refl eq_refl F eq_refl).
    reflexivity. }
  split; [exact M|]. split; [|reflexivity].
  rewrite app_comm_cons, run_app, M. cbn [run].
  rewrite (step_up (with_currentPath (with_isDrawing st true) (Some stroke))
             stroke eu eq_refl eq_refl).
  reflexivity.
Qed.

Lemma shape_stroke_is_anchor_and_current_witness :
  run rectIdle (PointerDown down0 t0 :: map PointerMove ([move1] ++ [move2])
                  ++ [PointerUp up0])
  = Some (committed rectIdle
            (DrawingPath.with_points (seedPath rectIdle down0 t0)
               [getCanvasPoint rectIdle down0; getCanvasPoint rectIdle move2])).
Proof.
  apply (shape_stroke_is_anchor_and_current rectIdle down0 t0 [move1] move2 up0);
    reflexivity.
Defined.

(** C6.  A pen stroke started at [e0] and dragged through [es] is committed
    on pointer-up with the points of [e0 :: es] in that order, each one the
    logical point (screen - viewport offset) / scale of its event. *)
Theorem pen_stroke_commits_all_samples
    (st : State) (c : Canvas) (e0 : PointerEvent) (now : N)
    (es : list PointerEvent) (eu : PointerEvent) :
  readOnly st = false -> currentTool st = pen -> canvasRef st = Some c ->
  run st (PointerDown e0 now :: map PointerMove es ++ [PointerUp eu])
  = Some (committed st
            (DrawingPath.mk (toString now)
               (map (logicalSample c (viewport st)) (e0 :: es))
               (color st) (width st) pen None)).
Proof.
  intros R T C.
  assert (T' : currentTool st <> pan) by (rewrite T; discriminate).
  assert (F : freehand (currentTool st) = true) by now rewrite T.
  set (st1 := with_currentPath (with_isDrawing st true)
                               (Some (seedPath st e0 now))).
  rewrite app_comm_cons, run_app. cbn [run]. rewrite (step_down _ _ _ R T').
  fold st1.
  rewrite (run_moves_freehand es st1 (seedPath st e0 now) eq_refl eq_refl F).
  rewrite (map_ext (getCanvasPoint st1) (logicalSample c (viewport st)))
    by (intros e; apply (getCanvasPoint_logical st1 c e C)).
  cbn [run].
  match goal with
  | |- context [step (with_currentPath ?s (Some ?p)) (PointerUp eu)] =>
      rewrite (step_up (with_currentPath s (Some p)) p eu eq_refl eq_refl)
  end.
  unfold seedPath, DrawingPath.with_points. cbn [DrawingPath.points DrawingPath.id
    DrawingPath.color DrawingPath.width DrawingPath.tool DrawingPath.isFilled].
  rewrite T, (getCanvasPoint_logical st c e0 C). reflexivity.
Qed.

Lemma pen_stroke_commits_all_samples_witness :
  run penIdle (PointerDown down0 t0 :: map PointerMove [move1; move2]
                 ++ [PointerUp up0])
  = Some (committed penIdle
            (DrawingPath.mk (toString t0)
               (map (logicalSample canvas0 (viewport penIdle))
                    (down0 :: [move1; move2]))
               (color penIdle) (width penIdle) pen None)).
Proof.
  apply (pen_stroke_commits_all_samples penIdle canvas0 down0 t0 [move1; move2] up0);
    reflexivity.
Defined.

(** C7 (as amended).  While the pan tool is active, the primary button is
    the only button held ([buttons = 1]) and no stroke is in progress, a
    pointer move translates the viewport offset by exactly the raw movement
    of the event, whatever the scale, and leaves the scale as it is. *)
Theorem pan_translates_viewport (st : State) (e : PointerEvent) :
  currentTool st = pan -> buttons e = 1%N ->
  isDrawing st = false \/ currentPath st = None ->
  step st (PointerMove e) = Some (with_viewport st (translated (viewport st) e))
  /\ Viewport.x (translated (viewport st) e) = Viewport.x (viewport st) + movementX e
  /\ Viewport.y (translated (viewport st) e) = Viewport.y (viewport st) + movementY e
  /\ Viewport.scale (translated (viewport st) e) = Viewport.scale (viewport st).
Proof.
  intros T B I. split; [|repeat split].
  unfold step; cbn [handle]. now rewrite (draw_pan _ _ T B I).
Qed.

Lemma pan_translates_viewport_witness :
  step panIdle (PointerMove move1)
  = Some (with_viewport panIdle (translated (viewport panIdle) move1)).
Proof.
  apply (pan_translates_viewport panIdle move1); [reflexivity | reflexivity |].
  left. reflexivity.
Defined.

(** C7, counterexample.  Two pointer moves made with the pan tool active and
    the primary button held that do not translate the viewport.

    First, a pen stroke is begun on a fresh note and the pan tool is selected
    before the pointer is released.  The next pointer move, with a movement
    of (3, 4) and the primary button held, is handled by the drawing branch
    of [draw]; the viewport stays (0, 0, 1).

    Second, on an idle note with the pan tool, a pointer move with a movement
    of (3, 4) and the primary and the secondary button held ([buttons = 3])
    fails the test [e.buttons === 1]; the state stays as it is. *)
Lemma pan_ignored_mid_stroke_and_with_two_buttons :
  (run penIdle [PointerDown down0 t0; ToolClick pan] = Some midStroke
   /\ currentTool midStroke = pan
   /\ buttons move1 = 1%N /\ primaryHeld move1 = true
   /\ step midStroke (PointerMove move1)
      = Some (with_currentPath midStroke
                (Some (DrawingPath.with_points (seedPath penIdle down0 t0)
                         [getCanvasPoint penIdle down0;
                          getCanvasPoint penIdle move1])))
   /\ viewport midStroke <> translated (viewport midStroke) move1)
  /\ (run penIdle [ToolClick pan] = Some panIdle
      /\ currentTool panIdle = pan
      /\ isDrawing panIdle = false /\ currentPath panIdle = None
      /\ buttons moveBoth = 3%N /\ primaryHeld moveBoth = true
      /\ step panIdle (PointerMove moveBoth) = Some panIdle
      /\ viewport panIdle <> translated (viewport panIdle) moveBoth).
Proof.
  split.
  - repeat split; try reflexivity.
    intros H. apply (f_equal Viewport.x) in H. discriminate H.
  - repeat split; try reflexivity.
    intros H. apply (f_equal Viewport.x) in H. discriminate H.
Qed.

(** ** Undo *)

(** C4.  Undo on a log that ends with the stroke [s] replaces the log by the
    strokes before [s], in their order; on the empty log the handler issues
    no call at all and the state is unchanged. *)
Theorem undo_removes_last_stroke (st : State) :
  (forall l s, paths st = l ++ [s] ->
      handleUndo st = [setPaths l] /\ step st UndoClick = Some (with_paths st l))
  /\ (forall a b c, paths st = [a; b; c] ->
      step st UndoClick = Some (with_paths st [a; b]))
  /\ (paths st = [] -> handleUndo st = [] /\ step st UndoClick = Some st).
Proof.
  assert (U : forall l s, paths st = l ++ [s] ->
      handleUndo st = [setPaths l] /\ step st UndoClick = Some (with_paths st l)).
  { intros l s H.
    assert (E : handleUndo st = [setPaths l]).
    { unfold handleUndo. rewrite H, removelast_last, length_app. cbn.
      now rewrite Nat.add_1_r. }
    split; [exact E|]. unfold step; cbn [handle]. now rewrite E. }
  split; [exact U|]. split.
  - intros a b c H. exact (proj2 (U [a; b] c H)).
  - intros H. unfold step; cbn [handle]. unfold handleUndo. rewrite H.
    split; reflexivity.
Qed.

Lemma undo_removes_last_stroke_witness :
  step threeStrokes UndoClick = Some (with_paths threeStrokes [strokeA; strokeB])
  /\ step penIdle UndoClick = Some penIdle.
Proof.
  split.
  - apply (proj1 (proj2 (undo_removes_last_stroke threeStrokes)) strokeA strokeB strokeC).
    reflexivity.
  - apply (proj2 (proj2 (undo_removes_last_stroke penIdle))). reflexivity.
Defined.

(** ** Every stroke in progress is seeded *)

Lemma In_removelast {A : Type} (l : list A) (a : A) :
  In a (removelast l) -> In a l.
Proof.
  induction l as [|b l IH]; cbn; [tauto|].
  destruct l as [|c l]; [tauto|]. intros [H | H]; [now left | right; auto].
Qed.

Lemma nonempty_length {A : Type} (l : list A) :
  l <> [] -> (1 <= List.length l)%nat.
Proof. destruct l; [congruence | cbn; lia]. Qed.

Ltac seeded_done :=
  eexists; split; [reflexivity|]; split;
  [ unfold seeded; cbn; try (intros ? [= <-]; cbn); auto; try discriminate
  | cbn; auto ].

Lemma step_seeded (st : State) (ev : Event) :
  seeded st ->
  exists st', step st ev = Some st' /\ seeded st'
              /\ forall p, In p (paths st') ->
                           In p (paths st) \/ DrawingPath.points p <> [].
Proof.
  intros S. destruct st as [ps v ro cr d t col w cp].
  unfold step; destruct ev; cbn [handle].
  - unfold startDrawing; cbn.
    destruct ro; [seeded_done|]. destruct (Tool_eqb t pan); seeded_done.
  - unfold draw; cbn -[freehand getCanvasPoint]. destruct d; cbn -[freehand getCanvasPoint].
    + destruct cp as [q|]; cbn -[freehand getCanvasPoint].
      * assert (Q : DrawingPath.points q <> []) by now apply S.
        destruct (freehand t); cbn -[getCanvasPoint].
        -- seeded_done. intros E. now apply app_eq_nil in E as [_ E].
        -- destruct (DrawingPath.points q) as [|p0 rest]; [congruence|].
           seeded_done.
      * destruct (Tool_eqb t pan && (buttons e =? 1)%N); seeded_done.
    + destruct (Tool_eqb t pan && (buttons e =? 1)%N); seeded_done.
  - unfold stopDrawing; cbn. destruct d; cbn; [|seeded_done].
    destruct cp as [q|]; cbn; [|seeded_done].
    assert (Q : DrawingPath.points q <> []) by now apply S.
    seeded_done. intros p H. apply in_app_or in H as [H | [<- | []]]; auto.
  - unfold stopDrawing; cbn. destruct d; cbn; [|seeded_done].
    destruct cp as [q|]; cbn; [|seeded_done].
    assert (Q : DrawingPath.points q <> []) by now apply S.
    seeded_done. intros p H. apply in_app_or in H as [H | [<- | []]]; auto.
  - seeded_done.
  - unfold manualZoom; cbn. destruct cr; seeded_done.
  - unfold manualZoom; cbn. destruct cr; seeded_done.
  - unfold handleSliderZoom; cbn. destruct cr; seeded_done.
  - unfold handleUndo; cbn [paths].
    destruct (0 <? List.length ps)%nat; [|seeded_done].
    seeded_done. intros p H. left. now apply In_removelast.
  - destruct confirmed; seeded_done.
  - seeded_done.
  - seeded_done.
  - seeded_done.
Qed.

Lemma run_seeded (evs : list Event) :
  forall st, seeded st ->
  exists st', run st evs = Some st' /\ seeded st'
              /\ forall p, In p (paths st') ->
                           In p (paths st) \/ DrawingPath.points p <> [].
Proof.
  induction evs as [|ev evs IH]; intros st S.
  - exists st. cbn. auto.
  - destruct (step_seeded st ev S) as (st1 & E1 & S1 & P1).
    destruct (IH st1 S1) as (st2 & E2 & S2 & P2).
    exists st2. cbn [run]. rewrite E1. split; [exact E2|]. split; [exact S2|].
    intros p H. destruct (P2 p H) as [H1 | H1]; auto.
Qed.

(** C9.  With any tool other than pan, a pointer-down followed at once by a
    pointer-up commits a stroke whose only point is the sample taken at
    pointer-down.  A stroke in progress always holds at least one point, so
    from a state where this is so every sequence of events is handled without
    meeting a stroke without points, and every stroke it adds to the log has
    at least one point. *)
Theorem click_commits_single_point :
  (forall st e now eu,
      readOnly st = false -> currentTool st <> pan ->
      run st [PointerDown e now; PointerUp eu]
      = Some (committed st (seedPath st e now))
      /\ DrawingPath.points (seedPath st e now) = [getCanvasPoint st e])
  /\ (forall st evs,
      seeded st ->
      exists st', run st evs = Some st' /\ seeded st'
        /\ forall p, In p (paths st') ->
              In p (paths st) \/ (1 <= List.length (DrawingPath.points p))%nat).
Proof.
  split.
  - intros st e now eu R T. split; [|reflexivity].
    cbn [run]. rewrite (step_down _ _ _ R T).
    rewrite (step_up (with_currentPath (with_isDrawing st true)
                        (Some (seedPath st e now)))
               (seedPath st e now) eu eq_refl eq_refl).
    reflexivity.
  - intros st evs S. destruct (run_seeded evs st S) as (st' & E & S' & P).
    exists st'. split; [exact E|]. split; [exact S'|].
    intros p H. destruct (P p H) as [H1 | H1]; [now left | right].
    now apply nonempty_length.
Qed.

Lemma click_commits_single_point_witness :
  (run rectIdle [PointerDown down0 t0; PointerUp up0]
   = Some (committed rectIdle (seedPath rectIdle down0 t0))
   /\ DrawingPath.points (seedPath rectIdle down0 t0)
      = [getCanvasPoint rectIdle down0])
  /\ exists st',
      run penIdle [PointerDown down0 t0; PointerMove move1; PointerLeave up0;
                   ToolClick line; PointerDown move2 t0; PointerUp up0]
      = Some st' /\ seeded st'
      /\ forall p, In p (paths st') ->
            In p (paths penIdle) \/ (1 <= List.length (DrawingPath.points p))%nat.
Proof.
  split.
  - apply (proj1 click_commits_single_point); [reflexivity | discriminate].
  - apply (proj2 click_commits_single_point). intros cp H. discriminate H.
Defined.

(** ** Read-only mode *)

Lemma applyUpdates_readOnly (b : bool) (us : list Update) :
  forall st,
  applyUpdates (with_readOnly st b) us
  = option_map (fun s => with_readOnly s b) (applyUpdates st us).
Proof.
  induction us as [|u us IH]; intros st; [reflexivity|].
  cbn [applyUpdates].
  destruct u as [d | upd | t | c | w | l | v | img | pid | pid];
    cbn [applyUpdate].
  - apply (IH (with_isDrawing st d)).
  - change (currentPath (with_readOnly st b)) with (currentPath st).
    destruct (upd (currentPath st)) as [p|]; [|reflexivity].
    apply (IH (with_currentPath st p)).
  - apply (IH (with_currentTool st t)).
  - apply (IH (with_color st c)).
  - apply (IH (with_width st w)).
  - apply (IH (with_paths st l)).
  - apply (IH (with_viewport st v)).
  - apply IH.
  - apply IH.
  - apply IH.
Qed.

Lemma with_readOnly_same (st : State) : with_readOnly st (readOnly st) = st.
Proof. now destruct st. Qed.

(** C8.  In read-only mode a pointer-down issues no call: no stroke is
    begun and the state (drawing flag, stroke in progress, log, viewport) is
    what it was.  Pointer moves (pan) and wheel events are handled as in
    normal mode: the handlers issue the calls they would issue with the flag
    off and the resulting states differ in the flag only; in particular pan
    still translates the viewport and the wheel still sets a clamped scale. *)
Theorem read_only_pointer_down_is_noop (st : State) :
  readOnly st = true ->
  (forall e now,
      startDrawing st e now = [] /\ step st (PointerDown e now) = Some st)
  /\ (forall e,
      draw st e = draw (with_readOnly st false) e /\
      step st (PointerMove e)
      = option_map (fun s => with_readOnly s true)
                   (step (with_readOnly st false) (PointerMove e)))
  /\ (forall w,
      handleWheel st w = handleWheel (with_readOnly st false) w /\
      step st (Wheel w)
      = option_map (fun s => with_readOnly s true)
                   (step (with_readOnly st false) (Wheel w)))
  /\ (forall e,
      currentTool st = pan -> buttons e = 1%N ->
      isDrawing st = false \/ currentPath st = None ->
      step st (PointerMove e)
      = Some (with_viewport st (translated (viewport st) e)))
  /\ (forall w, exists v',
      step st (Wheel w) = Some (with_viewport st v') /\
      in_limits (Viewport.scale v')).
Proof.
  intros R.
  assert (K : forall ev,
             handle st ev = handle (with_readOnly st false) ev ->
             step st ev = option_map (fun s => with_readOnly s true)
                            (step (with_readOnly st false) ev)).
  { intros ev H. unfold step. rewrite <- H.
    rewrite <- (applyUpdates_readOnly true).
    change (with_readOnly (with_readOnly st false) true)
      with (with_readOnly st true).
    now rewrite <- R, with_readOnly_same. }
  split; [|split; [|split; [|split]]].
  - intros e now. unfold step; cbn [handle]. unfold startDrawing.
    rewrite R. split; reflexivity.
  - intros e. split; [reflexivity|]. apply K. reflexivity.
  - intros w. split; [reflexivity|]. apply K. reflexivity.
  - intros e T B I. unfold step; cbn [handle]. now rewrite (draw_pan _ _ T B I).
  - intros w. eexists. split.
    + unfold step; cbn [handle]. rewrite handleWheel_eq. reflexivity.
    + apply wheelScale_in_limits.
Qed.

Lemma read_only_pointer_down_is_noop_witness :
  startDrawing readOnlyIdle down0 t0 = []
  /\ step readOnlyIdle (PointerDown down0 t0) = Some readOnlyIdle.
Proof.
  apply (proj1 (read_only_pointer_down_is_noop readOnlyIdle eq_refl)).
Defined.

(** ** Capture *)

(** C1 (what the code does).  No handler of the component ever calls
    [onCapture]: whatever the state and the event, the calls issued do not
    contain it.  The prop is passed by [App] and dropped by [Whiteboard]. *)
Theorem no_handler_calls_onCapture (st : State) (ev : Event) (imageData : string) :
  ~ In (onCapture imageData) (handle st ev).
Proof.
  destruct ev; cbn [handle];
    unfold startDrawing, draw, stopDrawing, handleWheel, manualZoom,
           handleSliderZoom, handleUndo, handleClear;
    repeat match goal with
           | |- context [if ?b then _ else _] => destruct b
           | |- context [match ?o with Some _ => _ | None => _ end] => destruct o
           end;
    cbn; intuition discriminate.
Qed.

(** ** Scenarios *)

Example wheel_scenario :
  step scenarioViewport (Wheel wheelAtOrigin)
  = Some (with_viewport scenarioViewport
            (Viewport.mk (lit 100) (lit 50) (lit 2.2)))
  /\ screenToLogical (lit 100) (lit 50) (Viewport.mk (lit 100) (lit 50) (lit 2.2))
     = (0, 0).
Proof.
  split; [vm_compute; reflexivity|].
  unfold screenToLogical. cbn [Viewport.x Viewport.y Viewport.scale].
  apply f_equal2; apply Qc_is_canon; reflexivity.
Qed.

Example pen_scenario :
  option_map paths
    (run penIdle [PointerDown (at_ 0 0) t0; PointerMove (at_ 10 0);
                  PointerMove (at_ 10 10); PointerUp (at_ 10 10)])
  = Some [DrawingPath.mk "1700000000000"
            [Point.mk 0 0 (Some (lit 0.5));
             Point.mk (lit 10) 0 (Some (lit 0.5));
             Point.mk (lit 10) (lit 10) (Some (lit 0.5))]
            "#000000" (lit 2) pen None].
Proof. vm_compute. reflexivity. Qed.

Example highlighter_seed :
  seedPath (with_currentTool penIdle highlighter) (at_ 0 0) t0
  = DrawingPath.mk "1700000000000" [Point.mk 0 0 (Some (lit 0.5))]
                   "#00000050" (lit 15) highlighter None.
Proof. vm_compute. reflexivity. Qed.

(** * Further properties of the engine *)

Ltac qc_lra :=
  unfold lit in *;
  unfold Qcle, Qclt, Qcplus, Qcmult, Qcopp, Qcminus, Q2Qc in *;
  cbn [this] in *; repeat rewrite Qred_correct in *; lra.

(** ** Freehand strokes *)

(** X1.  With any freehand tool (pen, eraser, highlighter) the stroke
    committed on pointer-up holds the samples of the pointer-down and of
    every move, in order.  Its style is fixed by the tool: an eraser stroke
    is white and 20 wide, a highlighter stroke has the chosen colour followed
    by 50 and is 15 wide, whatever width is configured; a pen stroke has the
    chosen colour and the configured width. *)
Theorem freehand_stroke_samples_and_style
    (st : State) (e0 : PointerEvent) (now : N)
    (es : list PointerEvent) (eu : PointerEvent) :
  readOnly st = false -> freehand (currentTool st) = true ->
  exists stroke,
    run st (PointerDown e0 now :: map PointerMove es ++ [PointerUp eu])
    = Some (committed st stroke)
    /\ DrawingPath.points stroke = map (getCanvasPoint st) (e0 :: es)
    /\ DrawingPath.tool stroke = currentTool st
    /\ DrawingPath.id stroke = toString now
    /\ (currentTool st = eraser ->
        DrawingPath.color stroke = "#ffffff"%string
        /\ DrawingPath.width stroke = lit 20)
    /\ (currentTool st = highlighter ->
        DrawingPath.color stroke = (color st ++ "50")%string
        /\ DrawingPath.width stroke = lit 15)
    /\ (currentTool st = pen ->
        DrawingPath.color stroke = color st
        /\ DrawingPath.width stroke = width st).
Proof.
  intros R F.
  assert (T : currentTool st <> pan) by (intros E; rewrite E in F; discriminate).
  set (st1 := with_currentPath (with_isDrawing st true)
                               (Some (seedPath st e0 now))).
  exists (DrawingPath.with_points (seedPath st e0 now)
            (map (getCanvasPoint st) (e0 :: es))).
  split.
  - rewrite app_comm_cons, run_app. cbn [run]. rewrite (step_down _ _ _ R T).
    fold st1.
    rewrite (run_moves_freehand es st1 (seedPath st e0 now) eq_refl eq_refl F).
    cbn [run].
    match goal with
    | |- context [step (with_currentPath ?s (Some ?p)) (PointerUp eu)] =>
        rewrite (step_up (with_currentPath s (Some p)) p eu eq_refl eq_refl)
    end.
    reflexivity.
  - split; [reflexivity|]. split; [reflexivity|]. split; [reflexivity|].
    unfold seedPath, DrawingPath.with_points;
      cbn [DrawingPath.color DrawingPath.width].
    split; [|split]; intros E; rewrite E; split; reflexivity.
Qed.

Lemma freehand_stroke_samples_and_style_witness :
  exists stroke,
    run (with_currentTool penIdle eraser)
        (PointerDown down0 t0 :: map PointerMove [move1; move2] ++ [PointerUp up0])
    = Some (committed (with_currentTool penIdle eraser) stroke)
    /\ DrawingPath.color stroke = "#ffffff"%string
    /\ DrawingPath.width stroke = lit 20.
Proof.
  destruct (freehand_stroke_samples_and_style
              (with_currentTool penIdle eraser) down0 t0 [move1; move2] up0
              eq_refl eq_refl)
    as (stroke & H & _ & _ & _ & E & _).
  exists stroke. split; [exact H|]. apply E. reflexivity.
Defined.

(** ** Ending a stroke *)

(** X2.  Pointer-leave ends a stroke as pointer-up does, and whatever the
    state a second end-of-stroke event changes nothing: the stroke in
    progress is committed once. *)
Theorem stroke_is_committed_once (st : State) (e e' : PointerEvent) :
  step st (PointerLeave e) = step st (PointerUp e)
  /\ run st [PointerLeave e; PointerUp e'] = step st (PointerLeave e)
  /\ run st [PointerUp e; PointerLeave e'] = step st (PointerUp e)
  /\ (forall cp, isDrawing st = true -> currentPath st = Some cp ->
        run st [PointerLeave e; PointerUp e'] = Some (committed st cp)).
Proof.
  assert (K : forall a b,
             run st [PointerUp a; PointerUp b] = step st (PointerUp a)).
  { intros a b. cbn [run]. unfold step; cbn [handle]. unfold stopDrawing.
    destruct (isDrawing st) eqn:D; cbn.
    - destruct (currentPath st); reflexivity.
    - now rewrite D. }
  split; [reflexivity|]. split; [exact (K e e')|]. split; [exact (K e e')|].
  intros cp D C. cbn [run]. unfold step; cbn [handle]. unfold stopDrawing.
  rewrite D, C. reflexivity.
Qed.

Lemma stroke_is_committed_once_witness :
  run midStroke [PointerLeave up0; PointerUp up0]
  = Some (committed midStroke (seedPath penIdle down0 t0)).
Proof.
  apply (proj2 (proj2 (proj2 (stroke_is_committed_once midStroke up0 up0))));
    reflexivity.
Defined.

(** ** Panning *)

Lemma with_viewport_twice (st : State) (v1 v2 : Viewport.t) :
  with_viewport (with_viewport st v1) v2 = with_viewport st v2.
Proof. reflexivity. Qed.

Lemma run_pan (evs : list Event) :
  forall st,
  currentTool st = pan -> isDrawing st = false ->
  forallb is_pointer evs = true ->
  run st evs
  = Some (with_viewport st
            (Viewport.mk (Viewport.x (viewport st) + heldMovementX evs)
                         (Viewport.y (viewport st) + heldMovementY evs)
                         (Viewport.scale (viewport st)))).
Proof.
  induction evs as [|ev evs IH]; intros st T D P.
  - cbn. rewrite !Qcplus_0_r. destruct st as [ps [vx vy vs] ro cr d t col w cp].
    reflexivity.
  - cbn [forallb] in P. apply andb_prop in P as [P1 P2].
    destruct ev; try discriminate P1; cbn [run heldMovementX heldMovementY].
    + assert (E : step st (PointerDown e now) = Some st).
      { unfold step; cbn [handle]. unfold startDrawing. rewrite T.
        destruct (readOnly st); reflexivity. }
      rewrite E. now apply IH.
    + unfold step; cbn [handle]. unfold draw. rewrite T, D. cbn [negb orb Tool_eqb andb].
      destruct (buttons e =? 1)%N; cbn [applyUpdates applyUpdate].
      * rewrite (IH (with_viewport st _) T D P2). cbn [viewport with_viewport].
        rewrite with_viewport_twice, !Qcplus_assoc. reflexivity.
      * rewrite (IH st T D P2), !Qcplus_0_l. reflexivity.
    + assert (E : step st (PointerUp e) = Some st).
      { unfold step; cbn [handle]. unfold stopDrawing. now rewrite D. }
      rewrite E. now apply IH.
    + assert (E : step st (PointerLeave e) = Some st).
      { unfold step; cbn [handle]. unfold stopDrawing. now rewrite D. }
      rewrite E. now apply IH.
Qed.

(** X3.  With the pan tool and no stroke in progress, a sequence of pointer
    events (down, move, up, leave) moves the viewport offset by the sum of
    the movements of the moves made with the primary button held; the scale,
    the log and the rest of the state stay as they are, and no stroke is
    begun. *)
Theorem pan_accumulates_movements (st : State) (evs : list Event) :
  currentTool st = pan -> isDrawing st = false ->
  forallb is_pointer evs = true ->
  exists st',
    run st evs = Some st'
    /\ Viewport.x (viewport st') = Viewport.x (viewport st) + heldMovementX evs
    /\ Viewport.y (viewport st') = Viewport.y (viewport st) + heldMovementY evs
    /\ Viewport.scale (viewport st') = Viewport.scale (viewport st)
    /\ paths st' = paths st
    /\ currentPath st' = currentPath st
    /\ isDrawing st' = false.
Proof.
  intros T D P. eexists. split; [apply (run_pan evs st T D P)|].
  cbn. repeat split. exact D.
Qed.

Lemma pan_accumulates_movements_witness :
  exists st',
    run panIdle [PointerDown down0 t0; PointerMove move1; PointerMove move2;
                 PointerUp up0; PointerMove up0] = Some st'
    /\ Viewport.x (viewport st') = Viewport.x (viewport panIdle) + (lit 3 + (lit 17 + (0 + 0)))
    /\ paths st' = paths panIdle.
Proof.
  destruct (pan_accumulates_movements panIdle
              [PointerDown down0 t0; PointerMove move1; PointerMove move2;
               PointerUp up0; PointerMove up0] eq_refl eq_refl eq_refl)
    as (st' & H & X & _ & _ & L & _).
  exists st'. split; [exact H|]. split; [exact X | exact L].
Defined.

(** ** The drawing flag and the stroke in progress *)

Ltac sync_done :=
  intros st' [= <-]; unfold in_sync in *; cbn in *;
  try tauto; try (split; [intros _; discriminate | reflexivity]);
  try (split; [discriminate | intros H; now contradiction H]).

Lemma step_in_sync (st : State) (ev : Event) :
  in_sync st -> forall st', step st ev = Some st' -> in_sync st'.
Proof.
  intros S. destruct st as [ps v ro cr d t col w cp].
  unfold step; destruct ev; cbn [handle].
  - unfold startDrawing; cbn.
    destruct ro; [sync_done|]. destruct (Tool_eqb t pan); sync_done.
  - unfold draw; cbn -[freehand getCanvasPoint].
    destruct d; cbn -[freehand getCanvasPoint].
    + destruct cp as [q|]; cbn -[freehand getCanvasPoint].
      * destruct (freehand t); cbn -[getCanvasPoint]; [sync_done|].
        destruct (DrawingPath.points q); [discriminate | sync_done].
      * destruct (Tool_eqb t pan && (buttons e =? 1)%N); sync_done.
    + destruct (Tool_eqb t pan && (buttons e =? 1)%N); sync_done.
  - unfold stopDrawing; cbn. destruct d; cbn; [|sync_done].
    destruct cp; cbn; sync_done.
  - unfold stopDrawing; cbn. destruct d; cbn; [|sync_done].
    destruct cp; cbn; sync_done.
  - sync_done.
  - unfold manualZoom; cbn. destruct cr; sync_done.
  - unfold manualZoom; cbn. destruct cr; sync_done.
  - unfold handleSliderZoom; cbn. destruct cr; sync_done.
  - unfold handleUndo; cbn [paths].
    destruct (0 <? List.length ps)%nat; sync_done.
  - destruct confirmed; sync_done.
  - sync_done.
  - sync_done.
  - sync_done.
Qed.

Lemma run_in_sync (evs : list Event) :
  forall st st', in_sync st -> run st evs = Some st' -> in_sync st'.
Proof.
  induction evs as [|ev evs IH]; intros st st' S; cbn [run].
  - now intros [= <-].
  - destruct (step st ev) as [st1|] eqn:E; [|discriminate].
    apply IH. exact (step_in_sync st ev S st1 E).
Qed.

(** X4.  The drawing flag and the stroke in progress stay in step: from a
    state where the flag is set exactly when a stroke is in progress (as on a
    fresh component) and that stroke has a point, every sequence of events is
    handled and leads to such a state again. *)
Theorem drawing_flag_tracks_stroke (st : State) (evs : list Event) :
  in_sync st -> seeded st ->
  exists st', run st evs = Some st' /\ in_sync st' /\ seeded st'.
Proof.
  intros S Q. destruct (run_seeded evs st Q) as (st' & E & Q' & _).
  exists st'. split; [exact E|]. split; [|exact Q'].
  exact (run_in_sync evs st st' S E).
Qed.

Lemma drawing_flag_tracks_stroke_witness :
  exists st',
    run penIdle [PointerDown down0 t0; PointerMove move1; ToolClick pan;
                 PointerMove move2; UndoClick; PointerLeave up0;
                 PointerMove move1] = Some st'
    /\ in_sync st' /\ seeded st'.
Proof.
  apply (drawing_flag_tracks_stroke penIdle).
  - split; [discriminate | intros H; now contradiction H].
  - intros cp H. discriminate H.
Defined.

(** ** What a stroke keeps from its pointer-down *)

Lemma step_mid_stroke (st : State) (ev : Event) (cp : DrawingPath.t)
      (p0 : Point.t) (rest : list Point.t) :
  isDrawing st = true -> currentPath st = Some cp ->
  DrawingPath.points cp = p0 :: rest -> mid_stroke ev = true ->
  exists st' cp' rest',
    step st ev = Some st'
    /\ isDrawing st' = true /\ currentPath st' = Some cp'
    /\ DrawingPath.points cp' = p0 :: rest'
    /\ same_style cp' cp /\ paths st' = paths st.
Proof.
  intros D C P M.
  destruct ev; try discriminate M; unfold step; cbn [handle].
  - destruct (freehand (currentTool st)) eqn:F.
    + exists (with_currentPath st
                (Some (DrawingPath.with_points cp
                         (DrawingPath.points cp ++ [getCanvasPoint st e])))),
             (DrawingPath.with_points cp
                (DrawingPath.points cp ++ [getCanvasPoint st e])),
             (rest ++ [getCanvasPoint st e]).
      split; [exact (step_move_freehand st cp e D C F)|].
      cbn. rewrite P. repeat split; auto.
    + exists (with_currentPath st
                (Some (DrawingPath.with_points cp [p0; getCanvasPoint st e]))),
             (DrawingPath.with_points cp [p0; getCanvasPoint st e]),
             [getCanvasPoint st e].
      split; [exact (step_move_shape st cp p0 rest e D C F P)|].
      cbn. repeat split; auto.
  - eexists _, cp, rest. rewrite handleWheel_eq. cbn.
    repeat split; auto.
  - unfold manualZoom. destruct (canvasRef st); eexists _, cp, rest; cbn;
      repeat split; auto.
  - unfold manualZoom. destruct (canvasRef st); eexists _, cp, rest; cbn;
      repeat split; auto.
  - unfold handleSliderZoom. destruct (canvasRef st); eexists _, cp, rest; cbn;
      repeat split; auto.
  - eexists _, cp, rest; cbn; repeat split; auto.
  - eexists _, cp, rest; cbn; repeat split; auto.
  - eexists _, cp, rest; cbn; repeat split; auto.
Qed.

Lemma run_mid_stroke (evs : list Event) :
  forall (st : State) (cp : DrawingPath.t) (p0 : Point.t) (rest : list Point.t),
  isDrawing st = true -> currentPath st = Some cp ->
  DrawingPath.points cp = p0 :: rest -> forallb mid_stroke evs = true ->
  exists st' cp' rest',
    run st evs = Some st'
    /\ isDrawing st' = true /\ currentPath st' = Some cp'
    /\ DrawingPath.points cp' = p0 :: rest'
    /\ same_style cp' cp /\ paths st' = paths st.
Proof.
  induction evs as [|ev evs IH]; intros st cp p0 rest D C P M.
  - exists st, cp, rest. cbn. repeat split; auto.
  - cbn [forallb] in M. apply andb_prop in M as [M1 M2].
    destruct (step_mid_stroke st ev cp p0 rest D C P M1)
      as (st1 & cp1 & rest1 & E1 & D1 & C1 & P1 & S1 & L1).
    destruct (IH st1 cp1 p0 rest1 D1 C1 P1 M2)
      as (st2 & cp2 & rest2 & E2 & D2 & C2 & P2 & S2 & L2).
    exists st2, cp2, rest2. cbn [run]. rewrite E1.
    split; [exact E2|]. split; [exact D2|]. split; [exact C2|].
    split; [exact P2|]. split; [|congruence].
    destruct S1 as (a1 & a2 & a3 & a4 & a5), S2 as (b1 & b2 & b3 & b4 & b5).
    repeat split; congruence.
Qed.

(** X5.  A stroke keeps what it got at pointer-down.  Between the
    pointer-down and the end of the stroke, pointer moves, zooming and the
    toolbar (another tool, colour or width) leave the identifier, colour,
    width and tool of the stroke in progress and its first point as the
    pointer-down set them, and leave the log alone; pointer-up then commits a
    stroke with that style whose first point is the pointer-down sample. *)
Theorem stroke_keeps_style_and_anchor
    (st : State) (e0 : PointerEvent) (now : N) (evs : list Event)
    (eu : PointerEvent) :
  readOnly st = false -> currentTool st <> pan ->
  forallb mid_stroke evs = true ->
  exists st' stroke rest,
    run st (PointerDown e0 now :: evs ++ [PointerUp eu]) = Some st'
    /\ paths st' = paths st ++ [stroke]
    /\ same_style stroke (seedPath st e0 now)
    /\ DrawingPath.points stroke = getCanvasPoint st e0 :: rest
    /\ currentPath st' = None /\ isDrawing st' = false.
Proof.
  intros R T M.
  destruct (run_mid_stroke evs
              (with_currentPath (with_isDrawing st true)
                                (Some (seedPath st e0 now)))
              (seedPath st e0 now) (getCanvasPoint st e0) []
              eq_refl eq_refl eq_refl M)
    as (st1 & cp1 & rest1 & E1 & D1 & C1 & P1 & S1 & L1).
  exists (committed st1 cp1), cp1, rest1.
  split.
  - rewrite app_comm_cons, run_app. cbn [run]. rewrite (step_down _ _ _ R T).
    rewrite E1. cbn [run]. now rewrite (step_up st1 cp1 eu D1 C1).
  - cbn. rewrite L1. cbn. repeat split; auto; apply S1.
Qed.

Lemma stroke_keeps_style_and_anchor_witness :
  exists st' stroke rest,
    run penIdle (PointerDown down0 t0
                   :: [PointerMove move1; ColorChange "#ff0000"; WidthChange (lit 9);
                       ToolClick rectangle; PointerMove move2]
                   ++ [PointerUp up0]) = Some st'
    /\ paths st' = paths penIdle ++ [stroke]
    /\ same_style stroke (seedPath penIdle down0 t0)
    /\ DrawingPath.points stroke = getCanvasPoint penIdle down0 :: rest
    /\ currentPath st' = None /\ isDrawing st' = false.
Proof.
  apply (stroke_keeps_style_and_anchor penIdle down0 t0
           [PointerMove move1; ColorChange "#ff0000"; WidthChange (lit 9);
            ToolClick rectangle; PointerMove move2] up0);
    [reflexivity | discriminate | reflexivity].
Defined.

(** ** The committed log *)

Lemma step_log_grows (st : State) (ev : Event) (st' : State) :
  edits_log ev = false -> step st ev = Some st' ->
  exists added, paths st' = paths st ++ added.
Proof.
  intros N. destruct st as [ps v ro cr d t col w cp].
  destruct ev; try discriminate N; unfold step; cbn [handle].
  - unfold startDrawing; cbn.
    destruct ro; [|destruct (Tool_eqb t pan)];
      intros [= <-]; exists []; cbn; now rewrite app_nil_r.
  - unfold draw; cbn -[freehand getCanvasPoint].
    destruct d; cbn -[freehand getCanvasPoint].
    + destruct cp as [q|]; cbn -[freehand getCanvasPoint].
      * destruct (freehand t); cbn -[getCanvasPoint].
        -- intros [= <-]; exists []; cbn; now rewrite app_nil_r.
        -- destruct (DrawingPath.points q); [discriminate|].
           intros [= <-]; exists []; cbn; now rewrite app_nil_r.
      * destruct (Tool_eqb t pan && (buttons e =? 1)%N);
          intros [= <-]; exists []; cbn; now rewrite app_nil_r.
    + destruct (Tool_eqb t pan && (buttons e =? 1)%N);
        intros [= <-]; exists []; cbn; now rewrite app_nil_r.
  - unfold stopDrawing; cbn. destruct d; cbn.
    + destruct cp as [q|]; cbn; intros [= <-];
        [exists [q]; reflexivity | exists []; cbn; now rewrite app_nil_r].
    + intros [= <-]; exists []; cbn; now rewrite app_nil_r.
  - unfold stopDrawing; cbn. destruct d; cbn.
    + destruct cp as [q|]; cbn; intros [= <-];
        [exists [q]; reflexivity | exists []; cbn; now rewrite app_nil_r].
    + intros [= <-]; exists []; cbn; now rewrite app_nil_r.
  - intros [= <-]; exists []; cbn; now rewrite app_nil_r.
  - unfold manualZoom; cbn. destruct cr;
      intros [= <-]; exists []; cbn; now rewrite app_nil_r.
  - unfold manualZoom; cbn. destruct cr;
      intros [= <-]; exists []; cbn; now rewrite app_nil_r.
  - unfold handleSliderZoom; cbn. destruct cr;
      intros [= <-]; exists []; cbn; now rewrite app_nil_r.
  - intros [= <-]; exists []; cbn; now rewrite app_nil_r.
  - intros [= <-]; exists []; cbn; now rewrite app_nil_r.
  - intros [= <-]; exists []; cbn; now rewrite app_nil_r.
Qed.

Lemma run_log_grows (evs : list Event) :
  forall st st',
  forallb (fun ev => negb (edits_log ev)) evs = true ->
  run st evs = Some st' ->
  exists added, paths st' = paths st ++ added.
Proof.
  induction evs as [|ev evs IH]; intros st st' N; cbn [run].
  - intros [= <-]. exists []. now rewrite app_nil_r.
  - cbn [forallb] in N. apply andb_prop in N as [N1 N2].
    apply negb_true_iff in N1.
    destruct (step st ev) as [st1|] eqn:E; [|discriminate].
    intros H. destruct (step_log_grows st ev st1 N1 E) as [a1 H1].
    destruct (IH st1 st' N2 H) as [a2 H2].
    exists (a1 ++ a2). now rewrite H2, H1, app_assoc.
Qed.

(** X6.  Drawing, panning, zooming and the toolbar only ever append to the
    log: over any sequence of events without undo and clear, the log the
    sequence started from is a prefix of the log it ends with, so committed
    strokes are neither changed, reordered nor dropped. *)
Theorem log_only_grows_without_undo_and_clear (st : State) (evs : list Event) :
  seeded st ->
  forallb (fun ev => negb (edits_log ev)) evs = true ->
  exists st' added, run st evs = Some st' /\ paths st' = paths st ++ added.
Proof.
  intros S N. destruct (run_seeded evs st S) as (st' & E & _).
  destruct (run_log_grows evs st st' N E) as [added H].
  now exists st', added.
Qed.

Lemma log_only_grows_without_undo_and_clear_witness :
  exists st' added,
    run threeStrokes [PointerDown down0 t0; PointerMove move1; Wheel wheelIn;
                      PointerUp up0; ToolClick pan; PointerMove move2]
    = Some st'
    /\ paths st' = paths threeStrokes ++ added.
Proof.
  apply (log_only_grows_without_undo_and_clear threeStrokes).
  - intros cp H. discriminate H.
  - reflexivity.
Defined.

Lemma with_paths_same (st : State) : with_paths st (paths st) = st.
Proof. now destruct st. Qed.

Lemma step_undo (st : State) :
  step st UndoClick = Some (with_paths st (removelast (paths st))).
Proof.
  unfold step; cbn [handle]. unfold handleUndo.
  destruct (paths st) as [|p l] eqn:E; cbn.
  - rewrite <- E. now rewrite with_paths_same.
  - reflexivity.
Qed.

Lemma run_undo_repeat (n : nat) :
  forall st,
  run st (repeat UndoClick n)
  = Some (with_paths st (firstn (List.length (paths st) - n) (paths st))).
Proof.
  induction n as [|n IH]; intros st.
  - cbn [repeat run]. rewrite Nat.sub_0_r, firstn_all. now rewrite with_paths_same.
  - cbn [repeat run]. rewrite step_undo, IH. cbn [paths with_paths].
    assert (E : firstn (List.length (removelast (paths st)) - n)
                       (removelast (paths st))
                = firstn (List.length (paths st) - S n) (paths st)).
    { generalize (paths st) as l. intros l.
      rewrite removelast_firstn_len, firstn_firstn, length_firstn.
      f_equal. lia. }
    rewrite E. reflexivity.
Qed.

(** X7.  Undo repeated [n] times keeps the first [length - n] strokes of
    the log in their order (none once [n] reaches the length of the log) and
    touches nothing else; in particular [n] strokes appended to a log are
    taken back by [n] undos. *)
Theorem undo_n_times (st : State) (n : nat) :
  run st (repeat UndoClick n)
  = Some (with_paths st (firstn (List.length (paths st) - n) (paths st)))
  /\ (forall l added,
        paths st = l ++ added -> n = List.length added ->
        run st (repeat UndoClick n) = Some (with_paths st l))
  /\ ((List.length (paths st) <= n)%nat ->
        run st (repeat UndoClick n) = Some (with_paths st [])).
Proof.
  split; [apply run_undo_repeat|]. split.
  - intros l added H ->. rewrite run_undo_repeat, H, length_app.
    replace (List.length l + List.length added - List.length added)%nat
      with (List.length l + 0)%nat by lia.
    now rewrite firstn_app_2, app_nil_r.
  - intros H. rewrite run_undo_repeat.
    replace (List.length (paths st) - n)%nat with 0%nat by lia. reflexivity.
Qed.

Lemma undo_n_times_witness :
  run threeStrokes (repeat UndoClick 2) = Some (with_paths threeStrokes [strokeA])
  /\ run threeStrokes (repeat UndoClick 5) = Some (with_paths threeStrokes []).
Proof.
  split.
  - apply (proj1 (proj2 (undo_n_times threeStrokes 2)) [strokeA] [strokeB; strokeC]);
      reflexivity.
  - apply (proj2 (proj2 (undo_n_times threeStrokes 5))). cbn. lia.
Defined.

(** X8.  Clear empties the log only when the confirmation is accepted, and
    a declined confirmation changes nothing.  An accepted clear cannot be
    taken back: after it any number of undos leaves the log empty.  The
    viewport, the tool settings and a stroke in progress survive a clear. *)
Theorem clear_is_confirmed_and_final (st : State) (n : nat) :
  step st (ClearClick false) = Some st
  /\ step st (ClearClick true) = Some (with_paths st [])
  /\ run st (ClearClick true :: repeat UndoClick n) = Some (with_paths st []).
Proof.
  split; [reflexivity|]. split; [reflexivity|].
  change (run st (ClearClick true :: repeat UndoClick n))
    with (run (with_paths st []) (repeat UndoClick n)).
  rewrite run_undo_repeat. reflexivity.
Qed.

(** ** Zooming, continued *)

Lemma le_leb (a b : number) : a <= b -> leb a b = true.
Proof. unfold leb, Qcle. apply Qle_bool_iff. Qed.

Lemma clamp_inside (s : number) :
  in_limits s -> Math_min (Math_max (lit 0.1) s) (lit 5) = s.
Proof.
  intros [L U]. unfold Math_max. rewrite (le_leb _ _ L).
  unfold Math_min. now rewrite (le_leb _ _ U).
Qed.

Lemma clamp_above (s : number) :
  lit 5 <= s -> Math_min (Math_max (lit 0.1) s) (lit 5) = lit 5.
Proof.
  intros U. assert (L : lit 0.1 <= s) by qc_lra.
  unfold Math_max. rewrite (le_leb _ _ L). unfold Math_min.
  destruct (leb s (lit 5)) eqn:E; [|reflexivity].
  apply Qcle_antisym; [now apply leb_true | exact U].
Qed.

Lemma clamp_below (s : number) :
  s <= lit 0.1 -> Math_min (Math_max (lit 0.1) s) (lit 5) = lit 0.1.
Proof.
  intros U. unfold Math_max.
  destruct (leb (lit 0.1) s) eqn:E.
  - apply leb_true in E. assert (s = lit 0.1) as -> by now apply Qcle_antisym.
    reflexivity.
  - reflexivity.
Qed.

Lemma zoomAtPoint_twice (v : Viewport.t) (ax ay s1 s2 : number) :
  s1 <> 0 ->
  zoomAtPoint (zoomAtPoint v ax ay s1) ax ay s2 = zoomAtPoint v ax ay s2.
Proof.
  intros H. unfold zoomAtPoint, screenToLogical. cbn.
  now rewrite !anchor_kept.
Qed.

Lemma step_manualZoom (st : State) (delta : number) :
  applyUpdates st (manualZoom st delta)
  = Some (with_viewport st
            match canvasRef st with
            | Some c => zoomAtPoint (viewport st)
                          (canvas_width c / lit 2) (canvas_height c / lit 2)
                          (manualScale (Viewport.scale (viewport st)) delta)
            | None => Viewport.mk (Viewport.x (viewport st))
                                  (Viewport.y (viewport st))
                                  (manualScale (Viewport.scale (viewport st)) delta)
            end).
Proof. unfold manualZoom. destruct (canvasRef st); reflexivity. Qed.

Lemma add_then_subtract (a d : Qc) : a + d + - d = a.
Proof. ring. Qed.

Lemma manualZoom_there_and_back (st : State) (d : number) :
  in_limits (Viewport.scale (viewport st)) ->
  in_limits (Viewport.scale (viewport st) + d) ->
  match applyUpdates st (manualZoom st d) with
  | Some st1 => applyUpdates st1 (manualZoom st1 (- d))
  | None => None
  end = Some st.
Proof.
  intros I1 I2. rewrite step_manualZoom, step_manualZoom.
  unfold manualScale. rewrite (clamp_inside _ I2).
  destruct st as [ps [vx vy vs] ro cr dr t col w cp]. cbn in *.
  destruct cr as [c|]; cbn.
  - rewrite add_then_subtract, (clamp_inside _ I1).
    rewrite zoomAtPoint_twice by now apply in_limits_nonzero.
    change vs with (Viewport.scale (Viewport.mk vx vy vs)) at 2.
    rewrite zoomAtPoint_same_scale by (cbn; now apply in_limits_nonzero).
    reflexivity.
  - now rewrite add_then_subtract, (clamp_inside _ I1).
Qed.

(** X9.  The zoom buttons step the scale by 0.25 around the canvas centre.
    Away from the limits they undo each other: zoom-in then zoom-out (scale
    within [0.1, 4.75]) and zoom-out then zoom-in (scale within [0.35, 5])
    restore the viewport exactly, offset included.  At the limits they
    saturate: zoom-in from a scale of 4.75 or more gives 5, zoom-out from
    0.35 or less gives 0.1. *)
Theorem zoom_buttons_step_and_saturate (st : State) :
  (lit 0.1 <= Viewport.scale (viewport st) ->
   Viewport.scale (viewport st) <= lit 4.75 ->
   run st [ZoomInClick; ZoomOutClick] = Some st)
  /\ (lit 0.35 <= Viewport.scale (viewport st) ->
      Viewport.scale (viewport st) <= lit 5 ->
      run st [ZoomOutClick; ZoomInClick] = Some st)
  /\ (lit 4.75 <= Viewport.scale (viewport st) ->
      exists st', step st ZoomInClick = Some st'
                  /\ Viewport.scale (viewport st') = lit 5)
  /\ (Viewport.scale (viewport st) <= lit 0.35 ->
      exists st', step st ZoomOutClick = Some st'
                  /\ Viewport.scale (viewport st') = lit 0.1).
Proof.
  split; [|split; [|split]].
  - intros L U.
    assert (I1 : in_limits (Viewport.scale (viewport st))) by (split; qc_lra).
    assert (I2 : in_limits (Viewport.scale (viewport st) + lit 0.25))
      by (split; qc_lra).
    pose proof (manualZoom_there_and_back st (lit 0.25) I1 I2) as H.
    cbn [run]. unfold step; cbn [handle].
    destruct (applyUpdates st (manualZoom st (lit 0.25))) as [st1|];
      [|discriminate H].
    now rewrite H.
  - intros L U.
    assert (I1 : in_limits (Viewport.scale (viewport st))) by (split; qc_lra).
    assert (I2 : in_limits (Viewport.scale (viewport st) + - lit 0.25))
      by (split; qc_lra).
    pose proof (manualZoom_there_and_back st (- lit 0.25) I1 I2) as H.
    rewrite Qcopp_involutive in H.
    cbn [run]. unfold step; cbn [handle].
    destruct (applyUpdates st (manualZoom st (- lit 0.25))) as [st1|];
      [|discriminate H].
    now rewrite H.
  - intros L. unfold step; cbn [handle]. rewrite step_manualZoom.
    eexists. split; [reflexivity|].
    assert (E : manualScale (Viewport.scale (viewport st)) (lit 0.25) = lit 5)
      by (apply clamp_above; qc_lra).
    destruct (canvasRef st); cbn; exact E.
  - intros U. unfold step; cbn [handle]. rewrite step_manualZoom.
    eexists. split; [reflexivity|].
    assert (E : manualScale (Viewport.scale (viewport st)) (- lit 0.25) = lit 0.1)
      by (apply clamp_below; qc_lra).
    destruct (canvasRef st); cbn; exact E.
Qed.

Lemma zoom_buttons_step_and_saturate_witness :
  run scenarioViewport [ZoomInClick; ZoomOutClick] = Some scenarioViewport
  /\ run scenarioViewport [ZoomOutClick; ZoomInClick] = Some scenarioViewport
  /\ (exists st', step zoomedIn ZoomInClick = Some st'
                  /\ Viewport.scale (viewport st') = lit 5).
Proof.
  split; [|split].
  - apply (proj1 (zoom_buttons_step_and_saturate scenarioViewport));
      apply leb_true; reflexivity.
  - apply (proj1 (proj2 (zoom_buttons_step_and_saturate scenarioViewport)));
      apply leb_true; reflexivity.
  - apply (proj1 (proj2 (proj2 (zoom_buttons_step_and_saturate zoomedIn)))).
    apply leb_true; reflexivity.
Defined.

Lemma scale_zoomAtPoint (v : Viewport.t) (ax ay s' : number) :
  Viewport.scale (zoomAtPoint v ax ay s') = s'.
Proof. reflexivity. Qed.

Lemma step_wheel (st : State) (e : WheelEvent) :
  step st (Wheel e)
  = Some (with_viewport st
            (zoomAtPoint (viewport st)
               (w_clientX e - w_left e) (w_clientY e - w_top e)
               (wheelScale (Viewport.scale (viewport st)) (deltaY e)))).
Proof. reflexivity. Qed.

Lemma wheelScale_flat (s : number) : in_limits s -> wheelScale s 0 = s.
Proof.
  intros I. unfold wheelScale.
  assert (E : s * (1 + - Math_sign 0 * lit 0.1) = s).
  { apply Qc_is_canon. change (Math_sign 0) with (Q2Qc 0). qc_lra. }
  rewrite E. now apply clamp_inside.
Qed.

Lemma wheelScale_in (s dY : number) :
  dY < 0 -> in_limits (s * lit 1.1) -> wheelScale s dY = s * lit 1.1.
Proof.
  intros D I. unfold wheelScale. rewrite (Math_sign_neg _ D).
  assert (E : s * (1 + - Qcopp 1 * lit 0.1) = s * lit 1.1)
    by (apply Qc_is_canon; qc_lra).
  rewrite E. now apply clamp_inside.
Qed.

Lemma wheelScale_out (s dY : number) :
  0 < dY -> in_limits (s * lit 0.9) -> wheelScale s dY = s * lit 0.9.
Proof.
  intros D I. unfold wheelScale. rewrite (Math_sign_pos _ D).
  assert (E : s * (1 + - (1) * lit 0.1) = s * lit 0.9)
    by (apply Qc_is_canon; qc_lra).
  rewrite E. now apply clamp_inside.
Qed.

(** X10.  One wheel notch changes the scale by a tenth of its value, so a
    notch in followed by a notch out at the same pointer position does not
    come back to the scale it started from but to 0.99 times it (as long as
    no limit is met); the logical point under the pointer is still kept.  A
    wheel event without vertical movement leaves the state as it is at every
    scale within [0.1, 5], the limits included. *)
Theorem wheel_notches (st : State) (wIn wOut wFlat : WheelEvent) :
  (deltaY wIn < 0 -> 0 < deltaY wOut ->
   w_clientX wOut - w_left wOut = w_clientX wIn - w_left wIn ->
   w_clientY wOut - w_top wOut = w_clientY wIn - w_top wIn ->
   lit 0.1 <= Viewport.scale (viewport st) * lit 0.99 ->
   Viewport.scale (viewport st) * lit 1.1 <= lit 5 ->
   exists st',
      run st [Wheel wIn; Wheel wOut] = Some st'
      /\ Viewport.scale (viewport st') = Viewport.scale (viewport st) * lit 0.99
      /\ screenToLogical (w_clientX wIn - w_left wIn) (w_clientY wIn - w_top wIn)
                         (viewport st')
         = screenToLogical (w_clientX wIn - w_left wIn) (w_clientY wIn - w_top wIn)
                           (viewport st))
  /\ (deltaY wFlat = 0 -> in_limits (Viewport.scale (viewport st)) ->
      step st (Wheel wFlat) = Some st).
Proof.
  set (s := Viewport.scale (viewport st)).
  split.
  - intros DI DO MX MY L U.
    assert (I1 : in_limits (s * lit 1.1)) by (split; qc_lra).
    assert (I2 : in_limits (s * lit 1.1 * lit 0.9)) by (split; qc_lra).
    assert (E : s * lit 1.1 * lit 0.9 = s * lit 0.99)
      by (apply Qc_is_canon; qc_lra).
    eexists. split; [|split].
    + cbn [run]. rewrite step_wheel. fold s. rewrite (wheelScale_in _ _ DI I1).
      rewrite step_wheel. cbn [viewport with_viewport]. rewrite MX, MY.
      rewrite scale_zoomAtPoint, (wheelScale_out _ _ DO I2), E.
      rewrite zoomAtPoint_twice by now apply in_limits_nonzero.
      reflexivity.
    + reflexivity.
    + cbn [viewport with_viewport]. apply zoomAtPoint_anchor.
      rewrite <- E. now apply in_limits_nonzero.
  - intros DF I0. rewrite step_wheel, DF. fold s. rewrite (wheelScale_flat _ I0).
    unfold s. rewrite zoomAtPoint_same_scale by now apply in_limits_nonzero.
    now rewrite with_viewport_same.
Qed.

Lemma wheel_notches_witness :
  (exists st',
      run scenarioViewport [Wheel wheelIn; Wheel wheelOut] = Some st'
      /\ Viewport.scale (viewport st')
         = Viewport.scale (viewport scenarioViewport) * lit 0.99
      /\ screenToLogical (w_clientX wheelIn - w_left wheelIn)
                         (w_clientY wheelIn - w_top wheelIn) (viewport st')
         = screenToLogical (w_clientX wheelIn - w_left wheelIn)
                           (w_clientY wheelIn - w_top wheelIn)
                           (viewport scenarioViewport))
  /\ step scenarioViewport (Wheel wheelFlat) = Some scenarioViewport.
Proof.
  destruct (wheel_notches scenarioViewport wheelIn wheelOut wheelFlat)
    as [Notches Flat].
  split.
  - apply Notches; try reflexivity; apply leb_true; reflexivity.
  - apply Flat; [reflexivity|]. split; apply leb_true; reflexivity.
Defined.

Lemma step_scale_in_limits (st : State) (ev : Event) (st' : State) :
  in_limits (Viewport.scale (viewport st)) -> slider_within ev ->
  step st ev = Some st' -> in_limits (Viewport.scale (viewport st')).
Proof.
  intros I W. destruct st as [ps v ro cr d t col w cp].
  cbn [viewport] in I.
  destruct ev; unfold step; cbn [handle].
  - unfold startDrawing; cbn.
    destruct ro; [|destruct (Tool_eqb t pan)]; now intros [= <-].
  - unfold draw; cbn -[freehand getCanvasPoint].
    destruct d; cbn -[freehand getCanvasPoint].
    + destruct cp as [q|]; cbn -[freehand getCanvasPoint].
      * destruct (freehand t); cbn -[getCanvasPoint]; [now intros [= <-]|].
        destruct (DrawingPath.points q); [discriminate | now intros [= <-]].
      * destruct (Tool_eqb t pan && (buttons e =? 1)%N); now intros [= <-].
    + destruct (Tool_eqb t pan && (buttons e =? 1)%N); now intros [= <-].
  - unfold stopDrawing; cbn. destruct d; cbn; [|now intros [= <-]].
    destruct cp; cbn; now intros [= <-].
  - unfold stopDrawing; cbn. destruct d; cbn; [|now intros [= <-]].
    destruct cp; cbn; now intros [= <-].
  - rewrite handleWheel_eq. intros [= <-]. apply wheelScale_in_limits.
  - rewrite step_manualZoom. intros [= <-].
    cbn. destruct cr; apply manualScale_in_limits.
  - rewrite step_manualZoom. intros [= <-].
    cbn. destruct cr; apply manualScale_in_limits.
  - unfold handleSliderZoom; cbn. destruct cr; intros [= <-];
      apply clamp_in_limits.
  - unfold handleUndo; cbn [paths].
    destruct (0 <? List.length ps)%nat; now intros [= <-].
  - destruct confirmed; now intros [= <-].
  - now intros [= <-].
  - now intros [= <-].
  - now intros [= <-].
Qed.

Lemma run_scale_in_limits (evs : list Event) :
  forall st st',
  in_limits (Viewport.scale (viewport st)) -> Forall slider_within evs ->
  run st evs = Some st' -> in_limits (Viewport.scale (viewport st')).
Proof.
  induction evs as [|ev evs IH]; intros st st' I W; cbn [run].
  - now intros [= <-].
  - inversion W as [|? ? W1 W2]; subst.
    destruct (step st ev) as [st1|] eqn:E; [|discriminate].
    apply IH; [|exact W2]. exact (step_scale_in_limits st ev st1 I W1 E).
Qed.

(** X11.  The scale stays within [0.1, 5]: from a state whose scale is
    within the limits, every sequence of events in which the slider delivers
    values of its declared range is handled and ends with a scale within the
    limits, so a scale of 0 is never divided by. *)
Theorem scale_stays_within_limits (st : State) (evs : list Event) :
  seeded st -> in_limits (Viewport.scale (viewport st)) ->
  Forall slider_within evs ->
  exists st', run st evs = Some st'
              /\ in_limits (Viewport.scale (viewport st'))
              /\ Viewport.scale (viewport st') <> 0.
Proof.
  intros S I W. destruct (run_seeded evs st S) as (st' & E & _).
  exists st'. split; [exact E|].
  pose proof (run_scale_in_limits evs st st' I W E) as I'.
  split; [exact I' | now apply in_limits_nonzero].
Qed.

Lemma scale_stays_within_limits_witness :
  exists st',
    run penIdle [Wheel wheelIn; ZoomInClick; SliderChange (lit 4.9);
                 Wheel wheelIn; ZoomOutClick; PointerMove move1] = Some st'
    /\ in_limits (Viewport.scale (viewport st'))
    /\ Viewport.scale (viewport st') <> 0.
Proof.
  apply (scale_stays_within_limits penIdle).
  - intros cp H. discriminate H.
  - split; apply leb_true; reflexivity.
  - repeat constructor; apply leb_true; reflexivity.
Defined.

(** ** Rendering *)

Section RenderingProperties.

Variable Math_sqrt : number -> number.
Variable Math_PI : number.

Lemma paintModes_app (a b : list CanvasOp) :
  forall m, paintModes (a ++ b) m = paintModes a m ++ paintModes b (modeAfter a m).
Proof.
  induction a as [|op a IH]; intros m; [reflexivity|].
  destruct op; cbn [app paintModes]; unfold modeAfter; cbn [fold_left];
    fold (modeAfter a); rewrite ?IH; reflexivity.
Qed.

Lemma modeAfter_app (a b : list CanvasOp) (m : string) :
  modeAfter (a ++ b) m = modeAfter b (modeAfter a m).
Proof. unfold modeAfter. apply fold_left_app. Qed.

Lemma paintModes_lines (ps : list Point.t) (m : string) :
  paintModes (map (fun p => lineTo (Point.x p) (Point.y p)) ps) m = [].
Proof. induction ps as [|p ps IH]; [reflexivity | exact IH]. Qed.

Lemma modeAfter_lines (ps : list Point.t) (m : string) :
  modeAfter (map (fun p => lineTo (Point.x p) (Point.y p)) ps) m = m.
Proof.
  unfold modeAfter. induction ps as [|p ps IH]; [reflexivity | exact IH].
Qed.

Lemma drawPath_modes (path : DrawingPath.t) :
  paintModes (drawPath Math_sqrt Math_PI path) "source-over"
  = (if painted path then [ownMode path] else [])
  /\ modeAfter (drawPath Math_sqrt Math_PI path) "source-over" = "source-over"%string.
Proof.
  unfold drawPath, painted, ownMode.
  destruct (DrawingPath.points path) as [|p0 rest]; [split; reflexivity|].
  destruct (DrawingPath.tool path); cbn -[paintModes modeAfter];
    rewrite ?paintModes_app, ?modeAfter_app;
    cbn [paintModes modeAfter fold_left app];
    rewrite ?paintModes_app, ?modeAfter_app, ?paintModes_lines, ?modeAfter_lines;
    split; reflexivity.
Qed.

Lemma drawPath_list_modes (ps : list DrawingPath.t) :
  paintModes (flat_map (drawPath Math_sqrt Math_PI) ps) "source-over"
  = map ownMode (filter painted ps)
  /\ modeAfter (flat_map (drawPath Math_sqrt Math_PI) ps) "source-over"
     = "source-over"%string.
Proof.
  induction ps as [|p ps [IH1 IH2]]; [split; reflexivity|].
  destruct (drawPath_modes p) as [H1 H2].
  cbn [flat_map filter]. rewrite paintModes_app, modeAfter_app, H1, H2, IH1, IH2.
  split; [|reflexivity]. now destruct (painted p).
Qed.

(** X12.  Erasing does not leak into the next stroke.  When the strokes of
    the log and then the stroke in progress are painted, starting in the
    normal composite mode, every stroke that is painted is painted once, in
    its own mode: an eraser stroke in destination-out, every other stroke in
    source-over, whatever was painted before it; and the context is left in
    source-over.  Strokes without points are not painted. *)
Theorem eraser_mode_does_not_leak (st : State) :
  paintModes (drawPaths Math_sqrt Math_PI st) "source-over"
  = map ownMode
        (filter painted
           (paths st ++ match currentPath st with Some p => [p] | None => [] end))
  /\ modeAfter (drawPaths Math_sqrt Math_PI st) "source-over" = "source-over"%string.
Proof.
  unfold drawPaths.
  destruct (drawPath_list_modes (paths st)) as [H1 H2].
  rewrite paintModes_app, modeAfter_app, H1, H2, filter_app, map_app.
  destruct (currentPath st) as [p|].
  - destruct (drawPath_modes p) as [K1 K2]. rewrite K1, K2.
    split; [|reflexivity]. cbn [filter]. now destruct (painted p).
  - split; reflexivity.
Qed.



(** X14.  A shape stroke (rectangle, circle, line) is painted from its
    first and its last point alone: the points in between have no effect on
    the calls issued. *)
Theorem shape_is_painted_from_first_and_last
    (path : DrawingPath.t) (p0 : Point.t) (rest : list Point.t) :
  is_shape (DrawingPath.tool path) = true ->
  DrawingPath.points path = p0 :: rest ->
  drawPath Math_sqrt Math_PI path
  = drawPath Math_sqrt Math_PI
      (DrawingPath.with_points path [p0; last rest p0]).
Proof.
  intros S P. unfold drawPath. rewrite P.
  cbn [DrawingPath.points DrawingPath.with_points DrawingPath.tool
       DrawingPath.color DrawingPath.width last].
  rewrite S, (is_shape_not_freehand _ S). reflexivity.
Qed.

End RenderingProperties.


Lemma shape_is_painted_from_first_and_last_witness :
  drawPath (fun r => r) (lit 3) rectStroke
  = drawPath (fun r => r) (lit 3)
      (DrawingPath.with_points rectStroke
         [Point.mk 0 0 None; Point.mk (lit 4) (lit 3) None]).
Proof.
  apply (shape_is_painted_from_first_and_last (fun r => r) (lit 3) rectStroke
           (Point.mk 0 0 None)
           [Point.mk (lit 2) (lit 7) None; Point.mk (lit 4) (lit 3) None]);
    reflexivity.
Defined.

(** * The note catalog of [App] *)

Lemma In_delete {V : Type} (k : string) (o : Obj.t V) (e : string * V) :
  In e (Obj.delete k o) <-> In e o /\ fst e <> k.
Proof.
  unfold Obj.delete. rewrite filter_In, negb_true_iff.
  split; intros [H1 H2]; (split; [exact H1|]).
  - intros E. apply String.eqb_eq in E. congruence.
  - destruct (String.eqb (fst e) k) eqn:E; [|reflexivity].
    apply String.eqb_eq in E. contradiction.
Qed.

Lemma parent_is_true (n : FileSystemNode.t) (nodeId : string) :
  parent_is n nodeId = true <-> FileSystemNode.parentId n = Some nodeId.
Proof.
  unfold parent_is. destruct (FileSystemNode.parentId n) as [p|].
  - rewrite String.eqb_eq. split; congruence.
  - split; discriminate.
Qed.

Lemma In_values {V : Type} (o : Obj.t V) (v : V) :
  In v (Obj.values o) <-> exists k, In (k, v) o.
Proof.
  unfold Obj.values. rewrite in_map_iff. split.
  - intros [[k v'] [E H]]. cbn in E. subst. now exists k.
  - intros [k H]. now exists (k, v).
Qed.

Lemma shallow_mono (fs fs' : Obj.t FileSystemNode.t) (h : nat) :
  (forall e, In e fs' -> In e fs) ->
  forall nodeId, shallow fs h nodeId -> shallow fs' h nodeId.
Proof.
  intros I. induction h as [|h IH]; intros nodeId; cbn; [tauto|].
  intros H k n K P. apply IH. exact (H k n (I _ K) P).
Qed.

Lemma descends_mono (fs fs' : Obj.t FileSystemNode.t) (root k : string) :
  (forall e, In e fs' -> In e fs) -> descends fs' root k -> descends fs root k.
Proof.
  intros I H. induction H as [|k n p K P _ IH]; [constructor|].
  exact (descends_child fs root k n p (I _ K) P IH).
Qed.

Lemma under_closed (fs : Obj.t FileSystemNode.t) (done : list FileSystemNode.t)
      (nodeId p k : string) (n : FileSystemNode.t) :
  under fs done nodeId p -> In (k, n) fs ->
  FileSystemNode.parentId n = Some p -> under fs done nodeId k.
Proof.
  intros (c & C1 & C2 & C3) K P. exists c. split; [exact C1|]. split; [exact C2|].
  exact (descends_child fs _ k n p K P C3).
Qed.

Lemma descends_restrict (fs fs_c : Obj.t FileSystemNode.t)
      (done : list FileSystemNode.t) (nodeId c k : string) :
  (forall e, In e fs_c <-> In e fs /\ ~ under fs done nodeId (fst e)) ->
  descends fs c k -> ~ under fs done nodeId k -> descends fs_c c k.
Proof.
  intros I H. induction H as [|k n p K P _ IH]; intros U; [constructor|].
  apply (descends_child fs_c c k n p).
  - apply I. split; [exact K | exact U].
  - exact P.
  - apply IH. intros Up. apply U. exact (under_closed fs done nodeId p k n Up K P).
Qed.

Lemma descends_split (fs : Obj.t FileSystemNode.t) (nodeId k : string) :
  keyed fs ->
  descends fs nodeId k <-> k = nodeId \/ under fs (Obj.values fs) nodeId k.
Proof.
  intros W. split.
  - intros H. induction H as [|k n p K P _ IH]; [now left|]. right.
    destruct IH as [-> | U].
    + exists n. split; [apply In_values; now exists k|].
      split; [now apply parent_is_true|].
      rewrite (W k n K). constructor.
    + exact (under_closed fs _ nodeId p k n U K P).
  - intros [-> | (c & C1 & C2 & C3)]; [constructor|].
    apply In_values in C1 as [kc Kc]. apply parent_is_true in C2.
    rewrite (W kc c Kc) in C3.
    induction C3 as [|k n p K P _ IH].
    + exact (descends_child fs nodeId kc c nodeId Kc C2 (descends_self fs nodeId)).
    + exact (descends_child fs nodeId k n p K P IH).
Qed.

Lemma under_snoc_other (fs : Obj.t FileSystemNode.t)
      (done : list FileSystemNode.t) (n : FileSystemNode.t) (nodeId k : string) :
  parent_is n nodeId = false ->
  under fs (done ++ [n]) nodeId k <-> under fs done nodeId k.
Proof.
  intros F. split; intros (c & C1 & C2 & C3); exists c.
  - apply in_app_or in C1 as [C1 | [<- | []]]; [auto | congruence].
  - split; [apply in_or_app; now left | auto].
Qed.

Lemma under_snoc_child (fs : Obj.t FileSystemNode.t)
      (done : list FileSystemNode.t) (n : FileSystemNode.t) (nodeId k : string) :
  parent_is n nodeId = true ->
  under fs (done ++ [n]) nodeId k
  <-> under fs done nodeId k \/ descends fs (FileSystemNode.id n) k.
Proof.
  intros T. split.
  - intros (c & C1 & C2 & C3).
    apply in_app_or in C1 as [C1 | [<- | []]]; [left; now exists c | now right].
  - intros [(c & C1 & C2 & C3) | D].
    + exists c. split; [apply in_or_app; now left | auto].
    + exists n. split; [apply in_or_app; right; now left | auto].
Qed.

Section DeleteRecursive.

Variable fs : Obj.t FileSystemNode.t.
Variable notes : Obj.t NoteContent.t.
Variable nodeId : string.
Variable fuel : nat.

Hypothesis fs_keyed : keyed fs.
Hypothesis fs_shallow : shallow fs (S fuel) nodeId.

(** What the recursive calls on the children are known to do. *)
Hypothesis calls_ok :
  forall (c : string) (fs_c : Obj.t FileSystemNode.t) (notes_c : Obj.t NoteContent.t),
  keyed fs_c -> shallow fs_c fuel c ->
  exists fs' notes',
    deleteRecursive fuel c (fs_c, notes_c) = Some (fs', notes')
    /\ (forall e, In e fs' <-> In e fs_c /\ ~ descends fs_c c (fst e))
    /\ (forall e, In e notes' <-> In e notes_c /\ ~ descends fs_c c (fst e)).

Lemma children_loop (todo : list FileSystemNode.t) :
  forall (done : list FileSystemNode.t)
         (fs_c : Obj.t FileSystemNode.t) (notes_c : Obj.t NoteContent.t),
  (forall n, In n todo -> In n (Obj.values fs)) ->
  (forall e, In e fs_c <-> In e fs /\ ~ under fs done nodeId (fst e)) ->
  (forall e, In e notes_c <-> In e notes /\ ~ under fs done nodeId (fst e)) ->
  exists fs' notes',
    fold_left
      (fun acc n =>
         match acc with
         | None => None
         | Some s' =>
             if parent_is n nodeId
             then deleteRecursive fuel (FileSystemNode.id n) s'
             else Some s'
         end)
      todo (Some (fs_c, notes_c)) = Some (fs', notes')
    /\ (forall e, In e fs' <-> In e fs /\ ~ under fs (done ++ todo) nodeId (fst e))
    /\ (forall e, In e notes' <-> In e notes /\ ~ under fs (done ++ todo) nodeId (fst e)).
Proof.
  induction todo as [|n todo IH]; intros done fs_c notes_c T I1 I2.
  - exists fs_c, notes_c. rewrite app_nil_r. cbn. auto.
  - cbn [fold_left].
    assert (T' : forall m, In m todo -> In m (Obj.values fs))
      by (intros m Hm; apply T; now right).
    replace (done ++ n :: todo) with ((done ++ [n]) ++ todo)
      by (rewrite <- app_assoc; reflexivity).
    destruct (parent_is n nodeId) eqn:P.
    + assert (Sub : forall e, In e fs_c -> In e fs) by (intros e He; now apply I1).
      assert (K : keyed fs_c) by (intros k m Hk; apply fs_keyed; now apply Sub).
      assert (Sh : shallow fs_c fuel (FileSystemNode.id n)).
      { apply (shallow_mono fs fs_c fuel Sub).
        destruct (proj1 (In_values fs n) (T n (or_introl eq_refl))) as [k Hk].
        rewrite (fs_keyed k n Hk).
        apply (fs_shallow k n Hk). now apply parent_is_true. }
      destruct (calls_ok (FileSystemNode.id n) fs_c notes_c K Sh)
        as (fs1 & notes1 & E & J1 & J2).
      rewrite E. apply IH; [exact T' | |].
      * intros e. rewrite J1, I1, (under_snoc_child fs done n nodeId (fst e) P).
        split.
        -- intros [[H1 H2] H3]. split; [exact H1|]. intros [U | D]; [auto|].
           apply H3. exact (descends_restrict fs fs_c done nodeId _ _ I1 D H2).
        -- intros [H1 H2]. split; [split; [exact H1 | tauto]|].
           intros D. apply H2. right. exact (descends_mono fs fs_c _ _ Sub D).
      * intros e. rewrite J2, I2, (under_snoc_child fs done n nodeId (fst e) P).
        split.
        -- intros [[H1 H2] H3]. split; [exact H1|]. intros [U | D]; [auto|].
           apply H3. exact (descends_restrict fs fs_c done nodeId _ _ I1 D H2).
        -- intros [H1 H2]. split; [split; [exact H1 | tauto]|].
           intros D. apply H2. right. exact (descends_mono fs fs_c _ _ Sub D).
    + apply IH; [exact T' | |]; intros e;
        rewrite (under_snoc_other fs done n nodeId (fst e) P); auto.
Qed.

Lemma deleteRecursive_step :
  exists fs' notes',
    deleteRecursive (S fuel) nodeId (fs, notes) = Some (fs', notes')
    /\ (forall e, In e fs' <-> In e fs /\ ~ descends fs nodeId (fst e))
    /\ (forall e, In e notes' <-> In e notes /\ ~ descends fs nodeId (fst e)).
Proof.
  destruct (children_loop (Obj.values fs) [] fs notes) as (fs1 & notes1 & E & J1 & J2).
  - auto.
  - intros e. split; [intros H; split; [exact H | now intros (c & [] & _)] | tauto].
  - intros e. split; [intros H; split; [exact H | now intros (c & [] & _)] | tauto].
  - cbn [app] in J1, J2.
    exists (Obj.delete nodeId fs1), (Obj.delete nodeId notes1).
    split.
    + cbn [deleteRecursive fst]. now rewrite E.
    + split; intros e; rewrite In_delete, ?J1, ?J2,
        (descends_split fs nodeId (fst e) fs_keyed); tauto.
Qed.

End DeleteRecursive.

Lemma deleteRecursive_spec (fuel : nat) :
  forall (nodeId : string) (fs : Obj.t FileSystemNode.t)
         (notes : Obj.t NoteContent.t),
  keyed fs -> shallow fs fuel nodeId ->
  exists fs' notes',
    deleteRecursive fuel nodeId (fs, notes) = Some (fs', notes')
    /\ (forall e, In e fs' <-> In e fs /\ ~ descends fs nodeId (fst e))
    /\ (forall e, In e notes' <-> In e notes /\ ~ descends fs nodeId (fst e)).
Proof.
  induction fuel as [|fuel IH]; intros nodeId fs notes K Sh; [contradiction|].
  apply deleteRecursive_step; auto.
Qed.

Lemma get_In {V : Type} (k : string) (o : Obj.t V) (v : V) :
  Obj.get k o = Some v -> In (k, v) o.
Proof.
  induction o as [|[k' v'] o IH]; cbn; [discriminate|].
  destruct (String.eqb k' k) eqn:E.
  - apply String.eqb_eq in E. intros [= ->]. left. now subst.
  - intros H. right. now apply IH.
Qed.

Lemma get_None_notin {V : Type} (k : string) (o : Obj.t V) :
  (forall v, ~ In (k, v) o) -> Obj.get k o = None.
Proof.
  intros H. destruct (Obj.get k o) as [v|] eqn:E; [|reflexivity].
  exfalso. exact (H v (get_In k o v E)).
Qed.

(** X15.  Deleting a node of the catalog (other than the root, confirmed)
    removes exactly the subtree of that node, from the file system and from
    the notes: an entry stays if and only if its key is not the node or one
    of its descendants, so no entry is left under a removed parent.  This
    holds whenever every entry is filed under its own identifier and the
    subtree is at most [fuel] levels deep (the recursion then ends).  The
    expanded folders and the other cells are not touched. *)
Theorem delete_node_removes_subtree (fuel : nat) (id : string) (app : App.t) :
  id <> INITIAL_ROOT_ID -> Obj.get id (App.fileSystem app) <> None ->
  keyed (App.fileSystem app) -> shallow (App.fileSystem app) fuel id ->
  exists app',
    handleDeleteNode fuel id true app = Some app'
    /\ (forall e, In e (App.fileSystem app')
                  <-> In e (App.fileSystem app)
                      /\ ~ descends (App.fileSystem app) id (fst e))
    /\ (forall e, In e (App.notes app')
                  <-> In e (App.notes app)
                      /\ ~ descends (App.fileSystem app) id (fst e))
    /\ (forall k n p, In (k, n) (App.fileSystem app') ->
                      FileSystemNode.parentId n = Some p ->
                      ~ descends (App.fileSystem app) id p)
    /\ Obj.get id (App.fileSystem app') = None
    /\ App.expandedFolders app' = App.expandedFolders app
    /\ App.darkMode app' = App.darkMode app
    /\ App.capturedImage app' = App.capturedImage app.
Proof.
  intros R G K Sh.
  destruct (deleteRecursive_spec fuel id (App.fileSystem app) (App.notes app) K Sh)
    as (fs' & notes' & E & J1 & J2).
  unfold handleDeleteNode.
  destruct (String.eqb id INITIAL_ROOT_ID) eqn:Er;
    [apply String.eqb_eq in Er; contradiction|].
  destruct (Obj.get id (App.fileSystem app)); [|contradiction]. rewrite E.
  eexists. split; [reflexivity|]. cbn.
  split; [exact J1|]. split; [exact J2|]. split; [|split; [|auto]].
  - intros k n p H P D. apply J1 in H as [H1 H2]. apply H2.
    exact (descends_child _ id k n p H1 P D).
  - apply get_None_notin. intros v H. apply J1 in H as [_ H]. apply H. constructor.
Qed.

Lemma catalog_keyed : keyed (App.fileSystem catalog).
Proof.
  intros k n H. cbn in H.
  repeat (destruct H as [H | H]; [injection H as <- <-; reflexivity|]).
  contradiction.
Qed.

Lemma catalog_shallow : shallow (App.fileSystem catalog) 2 "100".
Proof.
  intros k n H P. cbn in H.
  repeat (destruct H as [H | H];
          [injection H as <- <-; try discriminate P;
           intros k' n' H' P'; cbn in H';
           repeat (destruct H' as [H' | H'];
                   [injection H' as <- <-; discriminate P'|]);
           contradiction|]).
  contradiction.
Qed.

Lemma delete_node_removes_subtree_witness :
  exists app',
    handleDeleteNode 2 "100" true catalog = Some app'
    /\ Obj.get "100" (App.fileSystem app') = None
    /\ App.expandedFolders app' = App.expandedFolders catalog.
Proof.
  destruct (delete_node_removes_subtree 2 "100" catalog)
    as (app' & H & _ & _ & _ & G & X & _).
  - discriminate.
  - discriminate.
  - exact catalog_keyed.
  - exact catalog_shallow.
  - exists app'. split; [exact H|]. split; [exact G | exact X].
Defined.

(** X16.  Deleting is guarded and the active note is only half looked
    after.  The root folder, an identifier that is not in the catalog and a
    declined confirmation each leave the application state as it is.  After
    a deletion the active note is deselected when it is the deleted node
    itself; a note that lies deeper in the deleted subtree stays selected
    although its content has been removed. *)
Theorem delete_node_guards_and_active_note
    (fuel : nat) (id : string) (app : App.t) :
  handleDeleteNode fuel INITIAL_ROOT_ID true app = Some app
  /\ (Obj.get id (App.fileSystem app) = None ->
      forall confirmed, handleDeleteNode fuel id confirmed app = Some app)
  /\ handleDeleteNode fuel id false app = Some app
  /\ (forall app',
        id <> INITIAL_ROOT_ID -> Obj.get id (App.fileSystem app) <> None ->
        keyed (App.fileSystem app) -> shallow (App.fileSystem app) fuel id ->
        handleDeleteNode fuel id true app = Some app' ->
        (App.activeNoteId app = Some id -> App.activeNoteId app' = None)
        /\ (forall a, App.activeNoteId app = Some a -> a <> id ->
                      descends (App.fileSystem app) id a ->
                      App.activeNoteId app' = Some a
                      /\ Obj.get a (App.notes app') = None
                      /\ Obj.get a (App.fileSystem app') = None)).
Proof.
  split; [reflexivity|]. split; [|split].
  - intros G confirmed. unfold handleDeleteNode. rewrite G.
    now destruct (String.eqb id INITIAL_ROOT_ID).
  - unfold handleDeleteNode.
    destruct (String.eqb id INITIAL_ROOT_ID); [reflexivity|].
    now destruct (Obj.get id (App.fileSystem app)).
  - intros app' R G K Sh H.
    destruct (deleteRecursive_spec fuel id (App.fileSystem app) (App.notes app) K Sh)
      as (fs' & notes' & E & J1 & J2).
    unfold handleDeleteNode in H.
    destruct (String.eqb id INITIAL_ROOT_ID) eqn:Er;
      [apply String.eqb_eq in Er; contradiction|].
    destruct (Obj.get id (App.fileSystem app)); [|contradiction].
    rewrite E in H. injection H as <-. cbn. split.
    + intros ->. now rewrite String.eqb_refl.
    + intros a -> N D.
      destruct (String.eqb a id) eqn:Ea; [apply String.eqb_eq in Ea; contradiction|].
      split; [reflexivity|].
      split; apply get_None_notin; intros v H;
        [apply J2 in H | apply J1 in H]; destruct H as [_ H]; now apply H.
Qed.

Lemma delete_node_guards_and_active_note_witness :
  handleDeleteNode 2 "999" true catalog = Some catalog
  /\ (forall app', handleDeleteNode 2 "100" true catalog = Some app' ->
        App.activeNoteId app' = Some "102"%string
        /\ Obj.get "102" (App.notes app') = None
        /\ Obj.get "102" (App.fileSystem app') = None).
Proof.
  split.
  - apply (proj1 (proj2 (delete_node_guards_and_active_note 2 "999" catalog))).
    reflexivity.
  - intros app' H.
    apply (proj2 (proj2 (proj2 (delete_node_guards_and_active_note 2 "100" catalog)))
             app'); try discriminate; try reflexivity;
      [exact catalog_keyed | exact catalog_shallow | exact H |].
    apply (descends_child _ "100" "102" (node0 "102" (Some "100"%string) note) "100");
      [cbn; tauto | reflexivity | constructor].
Defined.

(** ** Folders, creation and the active note *)

(** X17.  Toggling a folder flips whether it is expanded and leaves every
    other folder as it was; toggling twice gives back the same set of
    expanded folders, and a list without repetitions stays so. *)
Theorem toggle_folder_flips_membership (id : string) (prev : list string) :
  (forall x, In x (handleToggleFolder id prev)
             <-> (x = id /\ ~ In id prev) \/ (x <> id /\ In x prev))
  /\ (forall x, In x (handleToggleFolder id (handleToggleFolder id prev))
                <-> In x prev)
  /\ (NoDup prev -> NoDup (handleToggleFolder id prev)).
Proof.
  assert (M : existsb (String.eqb id) prev = true <-> In id prev).
  { rewrite existsb_exists. split.
    - intros (y & H & E). apply String.eqb_eq in E. now subst.
    - intros H. exists id. split; [exact H | apply String.eqb_refl]. }
  assert (F : forall l x, In x (filter (fun fid => negb (String.eqb fid id)) l)
                          <-> In x l /\ x <> id).
  { intros l x. rewrite filter_In, negb_true_iff, String.eqb_neq. tauto. }
  assert (A : forall l, (forall x, In x (handleToggleFolder id l)
                   <-> (x = id /\ ~ In id l) \/ (x <> id /\ In x l))).
  { intros l x. unfold handleToggleFolder.
    destruct (existsb (String.eqb id) l) eqn:E.
    - apply (proj1 (existsb_exists _ _)) in E as (y & H & Ey).
      apply String.eqb_eq in Ey. subst y. rewrite F. tauto.
    - assert (N : ~ In id l).
      { intros H. assert (existsb (String.eqb id) l = true) as K.
        { apply existsb_exists. exists id. split; [exact H | apply String.eqb_refl]. }
        congruence. }
      rewrite in_app_iff. cbn. split.
      + intros [H | [<- | []]]; [right; split; [congruence | exact H] | now left].
      + intros [[-> _] | [_ H]]; [right; now left | now left]. }
  split; [apply A|]. split.
  - intros x. rewrite (A (handleToggleFolder id prev) x), !A.
    destruct (string_dec x id) as [-> | N]; [|tauto].
    destruct (in_dec string_dec id prev); tauto.
  - intros D. unfold handleToggleFolder.
    destruct (existsb (String.eqb id) prev) eqn:E.
    + now apply NoDup_filter.
    + apply NoDup_app; [exact D | repeat constructor; tauto |].
      intros x H [<- | []]. apply M in H. congruence.
Qed.

Lemma toggle_folder_flips_membership_witness :
  NoDup (handleToggleFolder "100" ["root-folder"; "100"; "200"]%string).
Proof.
  apply (proj2 (proj2 (toggle_folder_flips_membership "100"
                         ["root-folder"; "100"; "200"]%string))).
  repeat constructor; cbn; intuition discriminate.
Defined.

Lemma get_set {V : Type} (k k' : string) (v : V) (o : Obj.t V) :
  Obj.get k (Obj.set k' v o) = if String.eqb k' k then Some v else Obj.get k o.
Proof.
  induction o as [|[k0 v0] o IH]; cbn.
  - reflexivity.
  - destruct (String.eqb k0 k') eqn:E0; cbn.
    + apply String.eqb_eq in E0. subst k0.
      destruct (String.eqb k' k); reflexivity.
    + rewrite IH. destruct (String.eqb k0 k) eqn:E1; [|reflexivity].
      apply String.eqb_eq in E1. subst k0.
      assert (E : String.eqb k' k = false).
      { apply String.eqb_neq. apply String.eqb_neq in E0. congruence. }
      now rewrite E.
Qed.

Lemma delete_set_fresh {V : Type} (k : string) (v : V) (o : Obj.t V) :
  Obj.get k o = None -> Obj.delete k (Obj.set k v o) = o.
Proof.
  induction o as [|[k0 v0] o IH]; cbn.
  - intros _. now rewrite String.eqb_refl.
  - destruct (String.eqb k0 k) eqn:E; [discriminate|].
    intros H. cbn. rewrite E. cbn. f_equal. now apply IH.
Qed.

Lemma values_set_fresh {V : Type} (k : string) (v : V) (o : Obj.t V) :
  Obj.get k o = None -> Obj.values (Obj.set k v o) = Obj.values o ++ [v].
Proof.
  induction o as [|[k0 v0] o IH]; cbn; [reflexivity|].
  destruct (String.eqb k0 k); [discriminate|].
  intros H. cbn. f_equal. now apply IH.
Qed.

Lemma toString_not_root (n : N) : toString n <> INITIAL_ROOT_ID.
Proof.
  unfold toString, NilZero.string_of_uint.
  destruct (N.to_uint n); cbn; discriminate.
Qed.

Lemma children_loop_none (fuel : nat) (nodeId : string)
      (l : list FileSystemNode.t)
      (s : Obj.t FileSystemNode.t * Obj.t NoteContent.t) :
  (forall n, In n l -> parent_is n nodeId = false) ->
  fold_left
    (fun acc n =>
       match acc with
       | None => None
       | Some s' =>
           if parent_is n nodeId
           then deleteRecursive fuel (FileSystemNode.id n) s'
           else Some s'
       end)
    l (Some s) = Some s.
Proof.
  induction l as [|n l IH]; intros H; [reflexivity|].
  cbn [fold_left]. rewrite (H n (or_introl eq_refl)).
  apply IH. intros m Hm. apply H. now right.
Qed.

Lemma deleteRecursive_leaf (fuel : nat) (nodeId : string)
      (s : Obj.t FileSystemNode.t * Obj.t NoteContent.t) :
  (forall n, In n (Obj.values (fst s)) -> parent_is n nodeId = false) ->
  deleteRecursive (S fuel) nodeId s
  = Some (Obj.delete nodeId (fst s), Obj.delete nodeId (snd s)).
Proof.
  intros H. cbn [deleteRecursive]. rewrite (children_loop_none fuel nodeId _ s H).
  now destruct s.
Qed.

(** X18.  Creating a node files it under the given parent, or under the
    root folder when no parent (or an empty one) is given, and leaves every
    other entry of the catalog as it was; a new note gets an empty log and the
    viewport (0, 0, 1) and becomes the active note, a new folder is expanded
    and leaves the active note alone.  When the new identifier is not in use,
    creating a note and deleting it again restores the file system and the
    notes, but no note is active afterwards, whichever was before. *)
Theorem create_node_then_delete
    (ty : FileType) (parentId : option string) (now now1 now2 : N) (app : App.t) :
  let id := toString now in
  let app1 := handleCreateNode ty parentId now now1 now2 app in
  (exists pid,
      Obj.get id (App.fileSystem app1)
      = Some (FileSystemNode.mk id (Some pid)
                (match ty with folder => "New Folder" | note => "New Note" end)
                ty None now1 now2)
      /\ (parentId = None \/ parentId = Some EmptyString -> pid = INITIAL_ROOT_ID)
      /\ (forall p, parentId = Some p -> p <> EmptyString -> pid = p))
  /\ (forall k, k <> id ->
        Obj.get k (App.fileSystem app1) = Obj.get k (App.fileSystem app)
        /\ Obj.get k (App.notes app1) = Obj.get k (App.notes app))
  /\ (ty = note ->
      App.activeNoteId app1 = Some id
      /\ Obj.get id (App.notes app1)
         = Some (NoteContent.mk id [] [] (Viewport.mk 0 0 1))
      /\ App.expandedFolders app1 = App.expandedFolders app)
  /\ (ty = folder ->
      App.activeNoteId app1 = App.activeNoteId app
      /\ App.notes app1 = App.notes app
      /\ App.expandedFolders app1 = App.expandedFolders app ++ [id])
  /\ (ty = note ->
      Obj.get id (App.fileSystem app) = None ->
      Obj.get id (App.notes app) = None ->
      (forall n, In n (Obj.values (App.fileSystem app)) -> parent_is n id = false) ->
      parentId <> Some id ->
      handleDeleteNode 1 id true app1
      = Some (App.mk (App.fileSystem app) (App.notes app) None
                     (App.expandedFolders app) (App.darkMode app)
                     (App.capturedImage app))).
Proof.
  intros id app1.
  split; [|split; [|split; [|split]]].
  - exists (match parentId with
            | None => INITIAL_ROOT_ID
            | Some EmptyString => INITIAL_ROOT_ID
            | Some p => p
            end).
    split; [|split].
    + subst app1. unfold handleCreateNode. fold id.
      destruct ty; cbn [App.fileSystem]; now rewrite get_set, String.eqb_refl.
    + intros [-> | ->]; reflexivity.
    + intros p -> N. destruct p; [contradiction | reflexivity].
  - intros k N. subst app1. unfold handleCreateNode. fold id.
    assert (E : String.eqb id k = false) by (apply String.eqb_neq; congruence).
    destruct ty; cbn [App.fileSystem App.notes]; rewrite ?get_set, E; auto.
  - intros ->. subst app1. unfold handleCreateNode. fold id. cbn.
    now rewrite get_set, String.eqb_refl.
  - intros ->. subst app1. unfold handleCreateNode. fold id. cbn. auto.
  - intros -> F1 F2 C P. subst app1. unfold handleCreateNode. fold id.
    unfold handleDeleteNode. cbn [App.fileSystem App.notes App.activeNoteId
      App.expandedFolders App.darkMode App.capturedImage].
    destruct (String.eqb id INITIAL_ROOT_ID) eqn:Er;
      [apply String.eqb_eq in Er; now apply toString_not_root in Er|].
    rewrite get_set, String.eqb_refl.
    rewrite deleteRecursive_leaf.
    + cbn [fst snd].
      rewrite (delete_set_fresh _ _ _ F1), (delete_set_fresh _ _ _ F2).
      reflexivity.
    + cbn [fst]. rewrite (values_set_fresh _ _ _ F1).
      intros n H. apply in_app_or in H as [H | [<- | []]]; [now apply C|].
      unfold parent_is. cbn. apply String.eqb_neq.
      destruct parentId as [[|c p]|]; try congruence.
      * apply not_eq_sym, toString_not_root.
      * apply not_eq_sym, toString_not_root.
Qed.

Lemma create_node_then_delete_witness :
  handleDeleteNode 1 (toString 1700000000000) true
    (handleCreateNode note (Some "100"%string) 1700000000000 1700000000001
                      1700000000001 catalog)
  = Some (App.mk (App.fileSystem catalog) (App.notes catalog) None
                 (App.expandedFolders catalog) (App.darkMode catalog)
                 (App.capturedImage catalog)).
Proof.
  apply (proj2 (proj2 (proj2 (proj2
           (create_node_then_delete note (Some "100"%string) 1700000000000
              1700000000001 1700000000001 catalog)))));
    try reflexivity; try discriminate.
  intros n H. cbn in H.
  repeat (destruct H as [H | H]; [subst n; reflexivity|]). contradiction.
Defined.

(** X19.  What the whiteboard and the chat write reaches the active note
    only.  With an active note that has content, each of the three updaters
    replaces its own field of that note (the log, the viewport or the
    messages) and keeps the two other fields; every other note, the file
    system and the selection are as before.  Without an active note the
    updaters do nothing. *)
Theorem updaters_write_to_active_note_only
    (app : App.t) (a : string) (prev : NoteContent.t)
    (l : list DrawingPath.t) (v : Viewport.t) (ms : list ChatMessage.t) :
  App.activeNoteId app = Some a -> a <> EmptyString ->
  Obj.get a (App.notes app) = Some prev ->
  (exists app1 app2 app3,
      updateActiveNotePaths l app = Some app1
      /\ updateActiveNoteViewport v app = Some app2
      /\ updateActiveNoteMessages ms app = Some app3
      /\ Obj.get a (App.notes app1)
         = Some (NoteContent.mk (NoteContent.id prev) (NoteContent.messages prev)
                                l (NoteContent.viewport prev))
      /\ Obj.get a (App.notes app2)
         = Some (NoteContent.mk (NoteContent.id prev) (NoteContent.messages prev)
                                (NoteContent.paths prev) v)
      /\ Obj.get a (App.notes app3)
         = Some (NoteContent.mk (NoteContent.id prev) ms
                                (NoteContent.paths prev) (NoteContent.viewport prev))
      /\ (forall app', In app' [app1; app2; app3] ->
            (forall k, k <> a -> Obj.get k (App.notes app') = Obj.get k (App.notes app))
            /\ App.fileSystem app' = App.fileSystem app
            /\ App.activeNoteId app' = App.activeNoteId app
            /\ App.expandedFolders app' = App.expandedFolders app)).
Proof.
  intros A N G.
  assert (U : forall f,
             updateActiveNote f app
             = Some (App.mk (App.fileSystem app) (Obj.set a (f prev) (App.notes app))
                            (App.activeNoteId app) (App.expandedFolders app)
                            (App.darkMode app) (App.capturedImage app))).
  { intros f. unfold updateActiveNote. rewrite A.
    destruct a; [contradiction|]. now rewrite G. }
  unfold updateActiveNotePaths, updateActiveNoteViewport, updateActiveNoteMessages.
  rewrite !U. eexists _, _, _.
  split; [reflexivity|]. split; [reflexivity|]. split; [reflexivity|].
  cbn [App.notes].
  split; [now rewrite get_set, String.eqb_refl|].
  split; [now rewrite get_set, String.eqb_refl|].
  split; [now rewrite get_set, String.eqb_refl|].
  intros app' [<- | [<- | [<- | []]]]; cbn;
    (split; [|auto]); intros k Nk; rewrite get_set;
    assert (E : String.eqb a k = false) by (apply String.eqb_neq; congruence);
    now rewrite E.
Qed.

Lemma updaters_write_to_active_note_only_witness :
  exists app1,
    updateActiveNotePaths [strokeA] catalog = Some app1
    /\ Obj.get "102" (App.notes app1)
       = Some (NoteContent.mk "102" [] [strokeA] (Viewport.mk 0 0 1))
    /\ Obj.get "101" (App.notes app1) = Obj.get "101" (App.notes catalog).
Proof.
  destruct (updaters_write_to_active_note_only catalog "102" (note0 "102")
              [strokeA] (Viewport.mk 0 0 1) [] eq_refl)
    as (app1 & app2 & app3 & H1 & _ & _ & G1 & _ & _ & F);
    [discriminate | reflexivity |].
  exists app1. split; [exact H1|]. split; [exact G1|].
  apply (proj1 (F app1 (or_introl eq_refl))). discriminate.
Defined.

(** * The chat side *)

Lemma append_assoc (a b c : string) : ((a ++ b) ++ c = a ++ (b ++ c))%string.
Proof. induction a as [|x a IH]; cbn; [reflexivity | now rewrite IH]. Qed.

Lemma hasComma_append (a b : string) :
  hasComma (a ++ b) = hasComma a || hasComma b.
Proof.
  unfold hasComma. induction a as [|x a IH]; cbn; [reflexivity|].
  rewrite IH. now rewrite orb_assoc.
Qed.

Lemma splitComma_at_comma (a b : string) :
  hasComma a = false ->
  splitComma (a ++ String ","%char b) = a :: splitComma b.
Proof.
  unfold hasComma. induction a as [|x a IH]; cbn; [reflexivity|].
  destruct (Ascii.eqb x ","%char); [discriminate|]. cbn.
  intros H. now rewrite (IH H).
Qed.

Lemma splitComma_no_comma (d : string) :
  hasComma d = false -> splitComma d = [d].
Proof.
  unfold hasComma. induction d as [|x d IH]; cbn; [reflexivity|].
  destruct (Ascii.eqb x ","%char); [discriminate|]. cbn.
  intros H. now rewrite (IH H).
Qed.

(** X20.  The payload of an image survives the way through a data URI:
    for an attachment whose MIME type and data contain no comma (base64 has
    none), splitting the [src] that [Chat] builds for it at the commas and
    taking the second piece gives the data back.  A pending value without a
    comma has no second piece, and whatever MIME type a pending data URI
    names, the attachment stored for it is labelled image/png. *)
Theorem data_uri_round_trip (att : Attachment.t) (url : string) :
  (hasComma (Attachment.mimeType att) = false ->
   hasComma (Attachment.data att) = false ->
   base64Data (imageSrc att) = Some (Attachment.data att)
   /\ receivePending (Some (imageSrc att))
      = Some ("image/png"%string, Some (Attachment.data att)))
  /\ (hasComma url = false -> base64Data url = None).
Proof.
  split.
  - intros M D.
    assert (E : imageSrc att
                = (("data:" ++ Attachment.mimeType att ++ ";base64")
                     ++ String ","%char (Attachment.data att))%string).
    { unfold imageSrc. rewrite !append_assoc. reflexivity. }
    assert (B : base64Data (imageSrc att) = Some (Attachment.data att)).
    { unfold base64Data. rewrite E, splitComma_at_comma.
      - now rewrite (splitComma_no_comma _ D).
      - rewrite !hasComma_append, M. reflexivity. }
    split; [exact B|]. unfold receivePending. now rewrite <- B.
  - intros H. unfold base64Data. now rewrite (splitComma_no_comma _ H).
Qed.

Lemma data_uri_round_trip_witness :
  base64Data (imageSrc pngAttachment) = Some (Attachment.data pngAttachment)
  /\ base64Data "no payload here" = None.
Proof.
  split.
  - apply (proj1 (data_uri_round_trip pngAttachment "")); reflexivity.
  - apply (proj2 (data_uri_round_trip pngAttachment "no payload here")).
    reflexivity.
Defined.

Lemma recentHistory_older (older h : list ChatMessage.t) :
  (10 <= List.length h)%nat -> recentHistory (older ++ h) = recentHistory h.
Proof.
  intros H. unfold recentHistory. rewrite skipn_app, length_app.
  rewrite skipn_all2 by lia. cbn [app]. f_equal. lia.
Qed.

(** X21.  Only the ten most recent messages reach the tutor: the history
    used for the prompt has at most ten messages and is the end of the chat
    history, and the prompt and the request parts are the same whatever
    messages come before the last ten.  An attached image is the first part
    of the request and the prompt text the last. *)
Theorem prompt_uses_last_ten_messages
    (older h : list ChatMessage.t) (newMessage : string)
    (imageAttachment : option Attachment.t) :
  (List.length (recentHistory h) = Nat.min 10 (List.length h)
   /\ exists before, h = before ++ recentHistory h)
  /\ ((10 <= List.length h)%nat ->
      promptText (older ++ h) newMessage = promptText h newMessage
      /\ requestParts (older ++ h) newMessage imageAttachment
         = requestParts h newMessage imageAttachment)
  /\ last (requestParts h newMessage imageAttachment) (textPart "")
     = textPart (promptText h newMessage)
  /\ (forall att, imageAttachment = Some att ->
        hd (textPart "") (requestParts h newMessage imageAttachment)
        = inlineData (Attachment.mimeType att) (Attachment.data att)).
Proof.
  split; [|split; [|split]].
  - unfold recentHistory. rewrite length_skipn. split; [lia|].
    exists (firstn (List.length h - 10) h). now rewrite firstn_skipn.
  - intros H. unfold requestParts, promptText.
    rewrite (recentHistory_older older h H). split; reflexivity.
  - unfold requestParts. now destruct imageAttachment.
  - intros att ->. reflexivity.
Qed.

Lemma prompt_uses_last_ten_messages_witness :
  promptText ([ChatMessage.mk "0" user "old" 0 None]
                ++ repeat (ChatMessage.mk "1" model "Hello!" 1 None) 10) "hi"
  = promptText (repeat (ChatMessage.mk "1" model "Hello!" 1 None) 10) "hi".
Proof.
  apply (proj1 (proj2 (prompt_uses_last_ten_messages
                         [ChatMessage.mk "0" user "old" 0 None]
                         (repeat (ChatMessage.mk "1" model "Hello!" 1 None) 10)
                         "hi" None))).
  cbn. lia.
Defined.

Lemma orElse_nonempty (a : option string) (b : string) :
  b <> EmptyString -> orElse a b <> EmptyString.
Proof. destruct a as [[|c r]|]; cbn; auto; discriminate. Qed.

Lemma tutor_text_nonempty
    (apiKey : option string) (generate : list Part -> Outcome)
    (history : list ChatMessage.t) (newMessage : string)
    (imageAttachment : option Attachment.t) :
  sendMessageToTutor apiKey generate history newMessage imageAttachment
    <> EmptyString.
Proof.
  unfold sendMessageToTutor. destruct apiKey as [[|c k]|]; try discriminate.
  destruct (generate _) as [text | message].
  - apply orElse_nonempty. discriminate.
  - discriminate.
Qed.

(** X22.  The tutor service always answers with a non-empty text.  Without
    an API key (missing or empty) it answers the fixed configuration error
    and the model is not called; with a key, a response with a non-empty
    text is passed on as it is, an empty or missing text is replaced by the
    apology, and an exception becomes a text that begins with Error. *)
Theorem tutor_always_answers
    (apiKey : option string) (generate : list Part -> Outcome)
    (history : list ChatMessage.t) (newMessage : string)
    (imageAttachment : option Attachment.t) :
  sendMessageToTutor apiKey generate history newMessage imageAttachment
    <> EmptyString
  /\ (apiKey = None \/ apiKey = Some EmptyString ->
      forall other,
        sendMessageToTutor apiKey other history newMessage imageAttachment
        = "Error: API Key not configured."%string)
  /\ (forall c k c' text,
        apiKey = Some (String c k) ->
        generate (requestParts history newMessage imageAttachment)
        = responded (Some (String c' text)) ->
        sendMessageToTutor apiKey generate history newMessage imageAttachment
        = String c' text)
  /\ (forall c k text,
        apiKey = Some (String c k) ->
        generate (requestParts history newMessage imageAttachment)
        = responded text ->
        text = None \/ text = Some EmptyString ->
        sendMessageToTutor apiKey generate history newMessage imageAttachment
        = "I couldn't generate a response. Please try again."%string)
  /\ (forall c k message,
        apiKey = Some (String c k) ->
        generate (requestParts history newMessage imageAttachment)
        = threw message ->
        exists reason,
          sendMessageToTutor apiKey generate history newMessage imageAttachment
          = ("Error: " ++ reason)%string /\ reason <> EmptyString).
Proof.
  split; [|split; [|split; [|split]]].
  - apply tutor_text_nonempty.
  - intros [-> | ->] other; reflexivity.
  - intros c k c' text -> G. unfold sendMessageToTutor. now rewrite G.
  - intros c k text -> G [-> | ->]; unfold sendMessageToTutor; now rewrite G.
  - intros c k message -> G. unfold sendMessageToTutor. rewrite G.
    eexists. split; [reflexivity|]. apply orElse_nonempty. discriminate.
Qed.

Lemma tutor_always_answers_witness :
  sendMessageToTutor (Some EmptyString) (fun _ => responded (Some "4"%string))
                     [] "2+2?" None
  = "Error: API Key not configured."%string.
Proof.
  apply (proj1 (proj2 (tutor_always_answers (Some EmptyString)
                         (fun _ => responded None) [] "2+2?" None))).
  right. reflexivity.
Defined.

Lemma concat_snoc (sep : string) (l : list string) (x : string) :
  exists p, String.concat sep (l ++ [x]) = (p ++ x)%string.
Proof.
  induction l as [|a l [p IH]].
  - exists EmptyString. reflexivity.
  - exists (a ++ sep ++ p)%string. cbn [app String.concat].
    destruct (l ++ [x]) as [|b l'] eqn:E; [now destruct l|].
    rewrite IH. now rewrite !append_assoc.
Qed.

Lemma recentHistory_snoc (l : list ChatMessage.t) (u : ChatMessage.t) :
  exists r, recentHistory (l ++ [u]) = r ++ [u].
Proof.
  exists (skipn (List.length l + 1 - 10) l).
  unfold recentHistory. rewrite skipn_app, length_app. cbn [List.length].
  replace (List.length l + 1 - 10 - List.length l)%nat with 0%nat by lia.
  reflexivity.
Qed.

Lemma prompt_repeats_question (l : list ChatMessage.t) (u : ChatMessage.t) :
  ChatMessage.role u = user ->
  exists pre,
    promptText (l ++ [u]) (ChatMessage.text u)
    = (pre ++ "user: " ++ ChatMessage.text u ++ nl ++ nl
           ++ "User: " ++ ChatMessage.text u)%string.
Proof.
  intros R. unfold promptText.
  destruct (recentHistory_snoc l u) as [r E]. rewrite E.
  rewrite length_app. cbn [List.length].
  replace (0 <? List.length r + 1)%nat with true
    by (symmetry; apply Nat.ltb_lt; lia).
  rewrite map_app. cbn [map]. rewrite R. cbn [roleName].
  destruct (concat_snoc nl
              (map (fun m => roleName (ChatMessage.role m) ++ ": " ++ ChatMessage.text m)%string r)
              ("user" ++ ": " ++ ChatMessage.text u)%string) as [p P].
  rewrite P. exists ("Previous context:" ++ nl ++ p)%string.
  rewrite !append_assoc. reflexivity.
Qed.

(** X23.  A send appends the question and the answer.  Unless a reply is
    awaited or there is neither text nor attachment, [handleSend] adds the
    user's message (with the typed text and the attachment, if any) and then
    the tutor's reply, which is never empty, to the messages it started from,
    and clears the input and the attachment.  The history it hands to the
    tutor already ends with the new message, so the prompt states the
    question twice: as the last line of the previous context and as the
    final User line.  When a reply is awaited, or there is neither text nor
    attachment, nothing changes. *)
Theorem send_appends_question_and_answer
    (apiKey : option string) (generate : list Part -> Outcome)
    (blank : bool) (now now1 now2 now3 : N) (st : Chat.t) :
  (Chat.isLoading st = false ->
   blank = false \/ Chat.attachment st <> None ->
   exists userMsg aiMsg,
     handleSend apiKey generate blank now now1 now2 now3 st
     = Chat.mk (Chat.messages st ++ [userMsg; aiMsg]) "" None false
     /\ ChatMessage.role userMsg = user
     /\ ChatMessage.text userMsg = Chat.input st
     /\ ChatMessage.attachments userMsg
        = match Chat.attachment st with Some a => Some [a] | None => None end
     /\ ChatMessage.role aiMsg = model
     /\ ChatMessage.text aiMsg
        = sendMessageToTutor apiKey generate (Chat.messages st ++ [userMsg])
            (Chat.input st) (Chat.attachment st)
     /\ ChatMessage.text aiMsg <> EmptyString
     /\ exists pre,
          promptText (Chat.messages st ++ [userMsg]) (Chat.input st)
          = (pre ++ "user: " ++ Chat.input st ++ nl ++ nl
                 ++ "User: " ++ Chat.input st)%string)
  /\ (Chat.isLoading st = true \/ (blank = true /\ Chat.attachment st = None) ->
      handleSend apiKey generate blank now now1 now2 now3 st = st).
Proof.
  split.
  - intros L G.
    set (userMsg := ChatMessage.mk (toString now) user (Chat.input st) now1
                      (match Chat.attachment st with
                       | Some a => Some [a]
                       | None => None
                       end)).
    set (aiMsg := ChatMessage.mk (toString (now2 + 1)) model
                    (sendMessageToTutor apiKey generate
                       (Chat.messages st ++ [userMsg]) (Chat.input st)
                       (Chat.attachment st)) now3 None).
    exists userMsg, aiMsg. split.
    + unfold handleSend. rewrite L.
      assert (E : blank && match Chat.attachment st with
                           | None => true | Some _ => false end = false).
      { destruct G as [-> | G]; [reflexivity|].
        destruct (Chat.attachment st); [apply andb_false_r | contradiction]. }
      rewrite E. cbn [orb]. fold userMsg. cbn [ChatMessage.text]. fold aiMsg.
      now rewrite <- app_assoc.
    + repeat split.
      * cbn. apply tutor_text_nonempty.
      * exact (prompt_repeats_question (Chat.messages st) userMsg eq_refl).
  - intros [L | [-> A]]; unfold handleSend.
    + rewrite L. now rewrite orb_true_r.
    + now rewrite A.
Qed.

Lemma send_appends_question_and_answer_witness :
  exists userMsg aiMsg,
    handleSend (Some "key"%string) (fun _ => responded (Some "4"%string))
               false 10 11 12 13 askOnce
    = Chat.mk (Chat.messages askOnce ++ [userMsg; aiMsg]) "" None false
    /\ ChatMessage.text aiMsg <> EmptyString.
Proof.
  destruct (proj1 (send_appends_question_and_answer
                     (Some "key"%string) (fun _ => responded (Some "4"%string))
                     false 10 11 12 13 askOnce) eq_refl (or_introl eq_refl))
    as (u & a & H & _ & _ & _ & _ & _ & N & _).
  exists u, a. split; [exact H | exact N].
Defined.

(** * The background grid *)

Lemma ltb_ge (a b : number) : b <= a -> ltb a b = false.
Proof.
  intros H. unfold ltb. apply negb_false_iff. now apply Qle_bool_iff.
Qed.

Lemma ltb_lt (a b : number) : ltb a b = true -> a < b.
Proof.
  unfold ltb, Qclt. intros H. apply negb_true_iff in H.
  apply Qnot_le_lt. intros L. apply Qle_bool_iff in L. congruence.
Qed.

Lemma ltb_nlt (a b : number) : ltb a b = false -> b <= a.
Proof.
  unfold ltb. intros H. apply negb_false_iff in H.
  now apply Qle_bool_iff in H.
Qed.

Lemma advance_succ (x step : number) (n : nat) :
  advance x step (S n) = advance (x + step) step n.
Proof.
  induction n as [|n IH]; [reflexivity|].
  change (advance x step (S (S n))) with (advance x step (S n) + step).
  rewrite IH. reflexivity.
Qed.

Lemma gridLoop_progression (limit step : number) (fuel : nat) :
  forall x,
  limit <= advance x step fuel ->
  exists n,
    (n <= fuel)%nat
    /\ gridLoop fuel x limit step = Some (map (advance x step) (seq 0 n))
    /\ Forall (fun y => y < limit) (map (advance x step) (seq 0 n))
    /\ limit <= advance x step n.
Proof.
  induction fuel as [|fuel IH]; intros x H.
  - exists 0%nat. cbn in *. rewrite (ltb_ge _ _ H). auto.
  - cbn [gridLoop]. destruct (ltb x limit) eqn:L.
    + rewrite advance_succ in H. destruct (IH (x + step) H) as (n & N & E & F & U).
      exists (S n). rewrite E. split; [lia|].
      assert (M : map (advance x step) (seq 0 (S n))
                  = x :: map (advance (x + step) step) (seq 0 n)).
      { cbn [seq map]. f_equal. rewrite <- seq_shift, map_map.
        apply map_ext. intros k. apply advance_succ. }
      rewrite M. split; [reflexivity|]. split.
      * constructor; [now apply ltb_lt | exact F].
      * now rewrite advance_succ.
    + exists 0%nat. split; [lia|]. split; [reflexivity|].
      split; [constructor | now apply ltb_nlt].
Qed.

Lemma gridLoop_more_fuel (limit step : number) (fuel : nat) :
  forall x l, gridLoop fuel x limit step = Some l ->
              gridLoop (S fuel) x limit step = Some l.
Proof.
  induction fuel as [|fuel IH]; intros x l.
  - cbn. destruct (ltb x limit); [discriminate | auto].
  - intros H. cbn [gridLoop] in H. cbn [gridLoop].
    destruct (ltb x limit); [|exact H].
    destruct (gridLoop fuel (x + step) limit step) as [xs|] eqn:E; [|discriminate].
    apply IH in E. cbn [gridLoop] in E. now rewrite E.
Qed.

Lemma gridLoop_enough_fuel (limit step x : number) (fuel fuel' : nat)
      (l : list number) :
  (fuel <= fuel')%nat -> gridLoop fuel x limit step = Some l ->
  gridLoop fuel' x limit step = Some l.
Proof.
  intros H E. induction H as [|m H IH]; [exact E|].
  now apply gridLoop_more_fuel.
Qed.

Lemma gridLoop_never_ends (limit step : number) (fuel : nat) :
  step <= 0 -> forall x, x < limit -> gridLoop fuel x limit step = None.
Proof.
  intros S. induction fuel as [|fuel IH]; intros x L; cbn [gridLoop];
    rewrite (ltb_true _ _ L); [reflexivity|].
  rewrite IH; [reflexivity|]. qc_lra.
Qed.

Lemma advance_linear (x step : number) (n : nat) :
  (this (advance x step n) == this x + inject_Z (Z.of_nat n) * this step)%Q.
Proof.
  induction n as [|n IH].
  - cbn. ring.
  - change (this (advance x step (S n)))
      with (Qred (this (advance x step n) + this step)).
    rewrite Qred_correct, IH, Nat2Z.inj_succ. unfold Z.succ.
    rewrite inject_Z_plus. ring.
Qed.

Lemma advance_reaches (x step limit : number) :
  0 < step -> exists fuel, limit <= advance x step fuel.
Proof.
  intros S.
  destruct (Qarchimedean ((this limit - this x) / this step)) as [p Hp].
  exists (Pos.to_nat p). unfold Qcle. rewrite advance_linear.
  rewrite positive_nat_Z. unfold Qclt in S. cbn [this Q2Qc] in S.
  assert (P : (this limit - this x < inject_Z (Z.pos p) * this step)%Q).
  { apply (Qmult_lt_compat_r _ _ (this step)) in Hp; [|exact S].
    unfold inject_Z.
    setoid_replace ((this limit - this x) / this step * this step)%Q
      with (this limit - this x)%Q in Hp; [exact Hp|].
    field. intros E. rewrite E in S. now apply Qlt_irrefl in S. }
  lra.
Qed.

Lemma trunc_close (q : Qc) :
  (inject_Z (trunc q) - 1 < this q)%Q /\ (this q < inject_Z (trunc q) + 1)%Q.
Proof.
  destruct q as [[n d] c]. unfold trunc. cbn [this Qnum Qden].
  pose proof (Z.quot_rem' n (Z.pos d)) as E.
  pose proof (Z.rem_bound_abs n (Z.pos d)) as B.
  assert (B' : (Z.abs (Z.rem n (Z.pos d)) < Z.pos d)%Z) by (apply B; discriminate).
  unfold Qlt, Qminus, Qplus, Qopp, inject_Z. cbn [Qnum Qden].
  split; nia.
Qed.

Lemma rem_of_positive_step (a g : number) :
  0 < g ->
  exists r,
    rem a g = Some r
    /\ r = a - g * ofZ (trunc (a / g))
    /\ - g < r /\ r < g.
Proof.
  intros G. exists (a - g * ofZ (trunc (a / g))).
  assert (G' : (0 < this g)%Q) by exact G.
  assert (Gn : ~ (this g == 0)%Q).
  { intros E. rewrite E in G'. now apply Qlt_irrefl in G'. }
  split; [|split; [reflexivity|]].
  - unfold rem. destruct (Qeq_bool g 0) eqn:E; [|reflexivity].
    apply Qeq_bool_iff in E. contradiction.
  - destruct (trunc_close (a / g)) as [L U].
    assert (Q : (this (a / g) * this g == this a)%Q).
    { unfold Qcdiv, Qcmult, Qcinv. cbn [this Q2Qc]. rewrite !Qred_correct.
      field. exact Gn. }
    apply (Qmult_lt_compat_r _ _ (this g)) in L; [|exact G'].
    apply (Qmult_lt_compat_r _ _ (this g)) in U; [|exact G'].
    rewrite Q in L, U.
    unfold Qclt, Qcminus, Qcplus, Qcopp, Qcmult, ofZ. cbn [this Q2Qc].
    rewrite !Qred_correct. split; lra.
Qed.

Lemma grid_axis (a limit s : number) :
  0 < s ->
  exists offset n fuel0,
    rem a (lit 40 * s) = Some offset
    /\ offset = a - lit 40 * s * ofZ (trunc (a / (lit 40 * s)))
    /\ - (lit 40 * s) < offset /\ offset < lit 40 * s
    /\ (forall fuel, (fuel0 <= fuel)%nat ->
          gridLoop fuel offset limit (lit 40 * s)
          = Some (map (advance offset (lit 40 * s)) (seq 0 n)))
    /\ Forall (fun y => y < limit) (map (advance offset (lit 40 * s)) (seq 0 n))
    /\ limit <= advance offset (lit 40 * s) n.
Proof.
  intros S. assert (G : 0 < lit 40 * s) by qc_lra.
  destruct (rem_of_positive_step a (lit 40 * s) G) as (offset & R & E & L & U).
  destruct (advance_reaches offset (lit 40 * s) limit G) as [fuel0 F].
  destruct (gridLoop_progression limit (lit 40 * s) fuel0 offset F)
    as (n & _ & P & A & B).
  exists offset, n, fuel0. repeat (split; [assumption|]).
  split; [|split; assumption].
  intros fuel H. exact (gridLoop_enough_fuel _ _ _ _ _ _ H P).
Qed.

Lemma lines_bounded (offset cell limit : number) (n : nat) :
  0 < cell -> - cell < offset -> 0 <= limit ->
  Forall (fun y => y < limit) (map (advance offset cell) (seq 0 n)) ->
  ofZ (Z.of_nat n) * cell < limit + lit 2 * cell.
Proof.
  intros C L W F. destruct n as [|m].
  - replace (ofZ (Z.of_nat 0)) with (Q2Qc 0) by (apply Qc_is_canon; reflexivity).
    qc_lra.
  - assert (H : advance offset cell m < limit).
    { rewrite Forall_forall in F. apply F. apply in_map, in_seq. lia. }
    unfold Qclt in H. rewrite advance_linear in H.
    unfold Qclt, Qcle, Qcopp, Qcplus, Qcmult, ofZ, lit in *.
    cbn [this Q2Qc] in *. rewrite ?Qred_correct in *.
    rewrite Nat2Z.inj_succ. unfold Z.succ. rewrite inject_Z_plus.
    change (inject_Z 1) with 1%Q. lra.
Qed.

(** X24.  For a scale within [0.1, 5] and the size of a canvas, the grid
    loops end, and the lines form a regular grid that pans with the viewport.
    A cell is 40 times the scale, 4 pixels or more.  The first vertical line
    is at [viewport.x] minus a whole number of cells, less than one cell away
    from 0 on either side; the next ones follow at steps of one cell, all
    left of the width, the next step reaching or passing it, so there are
    fewer than [w / cell + 2] of them; the same holds for the horizontal
    lines with [viewport.y] and the height.  With enough fuel [drawGrid]
    returns, and more fuel changes nothing. *)
Theorem grid_is_regular_and_ends (w h : number) (vp : Viewport.t) :
  in_limits (Viewport.scale vp) -> canvas_dimension w -> canvas_dimension h ->
  let cell := lit 40 * Viewport.scale vp in
  lit 4 <= cell
  /\ exists offsetX nx offsetY ny fuel0,
    (exists k, offsetX = Viewport.x vp - cell * ofZ k)
    /\ (exists k, offsetY = Viewport.y vp - cell * ofZ k)
    /\ (- cell < offsetX /\ offsetX < cell)
    /\ (- cell < offsetY /\ offsetY < cell)
    /\ Forall (fun x => x < w) (map (advance offsetX cell) (seq 0 nx))
    /\ w <= advance offsetX cell nx
    /\ ofZ (Z.of_nat nx) * cell < w + lit 2 * cell
    /\ Forall (fun y => y < h) (map (advance offsetY cell) (seq 0 ny))
    /\ h <= advance offsetY cell ny
    /\ ofZ (Z.of_nat ny) * cell < h + lit 2 * cell
    /\ forall fuel, (fuel0 <= fuel)%nat ->
         gridColumns fuel w vp = Some (map (advance offsetX cell) (seq 0 nx))
         /\ gridRows fuel h vp = Some (map (advance offsetY cell) (seq 0 ny))
         /\ exists ops, drawGrid fuel w h vp = Some ops.
Proof.
  intros [I _] [W0 _] [H0 _] cell.
  assert (S : 0 < Viewport.scale vp) by qc_lra.
  assert (C : 0 < cell) by (unfold cell; qc_lra).
  split; [unfold cell; qc_lra|].
  destruct (grid_axis (Viewport.x vp) w _ S)
    as (ox & nx & fx & Rx & Ex & Lx & Ux & Px & Ax & Bx).
  destruct (grid_axis (Viewport.y vp) h _ S)
    as (oy & ny & fy & Ry & Ey & Ly & Uy & Py & Ay & By).
  exists ox, nx, oy, ny, (Nat.max fx fy). fold cell in Rx, Ex, Lx, Ux, Px, Ax, Bx,
    Ry, Ey, Ly, Uy, Py, Ay, By.
  split; [eexists; exact Ex|]. split; [eexists; exact Ey|].
  split; [now split|]. split; [now split|].
  split; [exact Ax|]. split; [exact Bx|].
  split; [exact (lines_bounded ox cell w nx C Lx W0 Ax)|].
  split; [exact Ay|]. split; [exact By|].
  split; [exact (lines_bounded oy cell h ny C Ly H0 Ay)|].
  intros fuel F.
  assert (Cx : gridColumns fuel w vp = Some (map (advance ox cell) (seq 0 nx))).
  { unfold gridColumns. fold cell. rewrite Rx. apply Px. lia. }
  assert (Cy : gridRows fuel h vp = Some (map (advance oy cell) (seq 0 ny))).
  { unfold gridRows. fold cell. rewrite Ry. apply Py. lia. }
  split; [exact Cx|]. split; [exact Cy|].
  unfold drawGrid. rewrite Cx, Cy. eexists. reflexivity.
Qed.

Lemma grid_is_regular_and_ends_witness :
  exists offsetX nx offsetY ny fuel0,
    (- (lit 40 * lit 2) < offsetX /\ offsetX < lit 40 * lit 2)
    /\ (- (lit 40 * lit 2) < offsetY /\ offsetY < lit 40 * lit 2)
    /\ ofZ (Z.of_nat nx) * (lit 40 * lit 2) < lit 800 + lit 2 * (lit 40 * lit 2)
    /\ ofZ (Z.of_nat ny) * (lit 40 * lit 2) < lit 600 + lit 2 * (lit 40 * lit 2)
    /\ forall fuel, (fuel0 <= fuel)%nat ->
         gridColumns fuel (lit 800) (viewport scenarioViewport)
         = Some (map (advance offsetX (lit 40 * lit 2)) (seq 0 nx))
         /\ gridRows fuel (lit 600) (viewport scenarioViewport)
            = Some (map (advance offsetY (lit 40 * lit 2)) (seq 0 ny))
         /\ exists ops, drawGrid fuel (lit 800) (lit 600)
                          (viewport scenarioViewport) = Some ops.
Proof.
  destruct (grid_is_regular_and_ends (lit 800) (lit 600)
              (viewport scenarioViewport))
    as (_ & ox & nx & oy & ny & f0 & _ & _ & Bx & By & _ & _ & Nx
          & _ & _ & Ny & F);
    try (split; apply leb_true; reflexivity).
  exists ox, nx, oy, ny, f0. split; [exact Bx|]. split; [exact By|].
  split; [exact Nx|]. split; [exact Ny | exact F].
Defined.

(** X25.  The grid is dimmed exactly below a quarter scale, and a scale
    that is not positive is an edge case of the loops.  Whenever [drawGrid]
    returns, it has set the alpha to 0.2 if the scale is below 0.25 (cells
    under 10 pixels) and to 1 otherwise, and it ends by stroking once and
    setting the alpha back to 1.  With a scale of 0 the remainder is NaN and
    no line is drawn; with a negative scale and a first column left of the
    width, the column loop steps away from its limit and never ends. *)
Theorem grid_alpha_and_degenerate_scales (w h : number) (vp : Viewport.t) :
  (forall fuel ops,
      drawGrid fuel w h vp = Some ops ->
      exists alpha lines,
        ops = [ beginPath; set_strokeStyle "#e2e8f0"; set_lineWidth 1;
                set_globalAlpha alpha ]
              ++ lines ++ [ stroke; set_globalAlpha 1 ]
        /\ (Viewport.scale vp < lit 0.25 -> alpha = lit 0.2)
        /\ (lit 0.25 <= Viewport.scale vp -> alpha = 1)
        /\ paintModes lines "source-over" = [])
  /\ (Viewport.scale vp = 0 ->
      forall fuel,
        drawGrid fuel w h vp
        = Some [ beginPath; set_strokeStyle "#e2e8f0"; set_lineWidth 1;
                 set_globalAlpha (lit 0.2); stroke; set_globalAlpha 1 ])
  /\ (Viewport.scale vp < 0 ->
      (forall offsetX,
          rem (Viewport.x vp) (lit 40 * Viewport.scale vp) = Some offsetX ->
          offsetX < w) ->
      forall fuel, drawGrid fuel w h vp = None).
Proof.
  split; [|split].
  - intros fuel ops. unfold drawGrid.
    destruct (gridColumns fuel w vp) as [xs|]; [|discriminate].
    destruct (gridRows fuel h vp) as [ys|]; [|discriminate].
    intros [= <-]. eexists _, (_ ++ _). split; [now rewrite <- app_assoc|].
    split; [|split].
    + intros H. rewrite ltb_true; [reflexivity | qc_lra].
    + intros H. rewrite ltb_ge; [reflexivity | qc_lra].
    + rewrite paintModes_app.
      assert (A : forall (f : number -> list CanvasOp) l m,
                 (forall x m', paintModes (f x) m' = [] /\ modeAfter (f x) m' = m') ->
                 paintModes (flat_map f l) m = [] /\ modeAfter (flat_map f l) m = m).
      { intros f l. induction l as [|x l IH]; intros m H; [split; reflexivity|].
        cbn [flat_map]. rewrite paintModes_app, modeAfter_app.
        destruct (H x m) as [H1 H2]. rewrite H1, H2. now apply IH. }
      rewrite (proj1 (A (fun x => [moveTo x 0; lineTo x h]) xs _
                        (fun x m' => conj eq_refl eq_refl))).
      rewrite (proj1 (A (fun y => [moveTo 0 y; lineTo w y]) ys _
                        (fun x m' => conj eq_refl eq_refl))).
      reflexivity.
  - intros Z fuel. unfold drawGrid, gridColumns, gridRows. rewrite Z.
    replace (lit 40 * 0) with (Q2Qc 0) by (apply Qc_is_canon; reflexivity).
    reflexivity.
  - intros N B fuel. unfold drawGrid, gridColumns.
    destruct (rem (Viewport.x vp) (lit 40 * Viewport.scale vp)) as [ox|] eqn:R.
    + rewrite gridLoop_never_ends; [reflexivity | qc_lra | now apply B].
    + unfold rem in R.
      destruct (Qeq_bool (lit 40 * Viewport.scale vp)%Qc 0%Q) eqn:E;
        [|discriminate R].
      apply Qeq_bool_iff in E. exfalso. revert E. qc_lra.
Qed.

Lemma grid_alpha_and_degenerate_scales_witness :
  (forall fuel,
      drawGrid fuel (lit 800) (lit 600) (Viewport.mk (lit 100) (lit 50) 0)
      = Some [ beginPath; set_strokeStyle "#e2e8f0"; set_lineWidth 1;
               set_globalAlpha (lit 0.2); stroke; set_globalAlpha 1 ])
  /\ (forall fuel,
        drawGrid fuel (lit 800) (lit 600)
                 (Viewport.mk (lit 100) (lit 50) (lit (-1))) = None).
Proof.
  split.
  - apply (proj1 (proj2 (grid_alpha_and_degenerate_scales (lit 800) (lit 600)
                           (Viewport.mk (lit 100) (lit 50) 0)))).
    reflexivity.
  - apply (proj2 (proj2 (grid_alpha_and_degenerate_scales (lit 800) (lit 600)
                           (Viewport.mk (lit 100) (lit 50) (lit (-1)))))).
    + reflexivity.
    + intros ox H. vm_compute in H. injection H as <-. reflexivity.
Defined.

(** ** Strokes are painted where they were drawn *)

Lemma toScreen_app (a b : list CanvasOp) (p : number * number) :
  toScreen (a ++ b) p = toScreen a (toScreen b p).
Proof. unfold toScreen. apply fold_right_app. Qed.

Lemma screen_round_trip (a o s : number) : s <> 0 -> (a - o) / s * s + o = a.
Proof. intros H. field. exact H. Qed.

Lemma logical_round_trip (a o s : number) : s <> 0 -> (a * s + o - o) / s = a.
Proof. intros H. field. exact H. Qed.

(** X26.  The transformation the strokes are painted under is the inverse
    of the conversion of the pointer samples.  With a scale other than 0, the
    point [getCanvasPoint] records for a pointer event lands, under
    translate(viewport.x, viewport.y) followed by scale(scale, scale), at the
    position of the pointer relative to the canvas, and every painted point
    converts back to itself.  The render effect puts exactly this
    transformation, and nothing else that moves coordinates, between [save]
    and the painting of the strokes. *)
Theorem strokes_are_painted_under_the_pointer
    (Math_sqrt : number -> number) (Math_PI : number)
    (st : State) (c : Canvas) (e : PointerEvent) :
  canvasRef st = Some c -> Viewport.scale (viewport st) <> 0 ->
  toScreen (viewTransform (viewport st))
           (Point.x (getCanvasPoint st e), Point.y (getCanvasPoint st e))
  = (clientX e - rect_left c, clientY e - rect_top c)
  /\ (forall p,
        screenToLogical (fst (toScreen (viewTransform (viewport st)) p))
                        (snd (toScreen (viewTransform (viewport st)) p))
                        (viewport st) = p)
  /\ (forall fuel parent ops,
        render Math_sqrt Math_PI fuel parent true st = Some ops ->
        exists before,
          ops = before ++ [save] ++ viewTransform (viewport st)
                ++ drawPaths Math_sqrt Math_PI st ++ [restore]
          /\ forall p, toScreen before p = p).
Proof.
  intros C S. split; [|split].
  - unfold getCanvasPoint. rewrite C. cbn.
    now rewrite !screen_round_trip.
  - intros [px py]. unfold screenToLogical. cbn.
    now rewrite !logical_round_trip.
  - intros fuel parent ops. unfold render. rewrite C. cbn [negb].
    destruct (drawGrid fuel _ _ (viewport st)) as [grid|] eqn:G; [|discriminate].
    intros [= <-].
    assert (I : forall p, toScreen grid p = p).
    { intros p. unfold drawGrid in G.
      destruct (gridColumns fuel _ (viewport st)) as [xs|]; [|discriminate].
      destruct (gridRows fuel _ (viewport st)) as [ys|]; [|discriminate].
      assert (A : forall (f : number -> list CanvasOp) l q,
                 (forall x q', toScreen (f x) q' = q') ->
                 toScreen (flat_map f l) q = q).
      { intros f l q H. induction l as [|x l IH]; [reflexivity|].
        cbn [flat_map]. now rewrite toScreen_app, IH, H. }
      injection G as G. rewrite <- G.
      unfold toScreen in *. cbn [fold_right]. rewrite !fold_right_app.
      cbn [fold_right]. rewrite !A; auto. }
    destruct parent as [[pw ph]|].
    + exists ([set_width pw; set_height ph] ++ [clearRect 0 0 pw ph] ++ grid).
      split; [now rewrite <- !app_assoc|].
      intros p. rewrite !toScreen_app, I. reflexivity.
    + exists ([clearRect 0 0 (canvas_width c) (canvas_height c)] ++ grid).
      split; [now rewrite <- !app_assoc|].
      intros p. rewrite !toScreen_app, I. reflexivity.
Qed.

Lemma strokes_are_painted_under_the_pointer_witness :
  toScreen (viewTransform (viewport scenarioViewport))
           (Point.x (getCanvasPoint scenarioViewport move1),
            Point.y (getCanvasPoint scenarioViewport move1))
  = (clientX move1 - rect_left canvas0, clientY move1 - rect_top canvas0).
Proof.
  apply (proj1 (strokes_are_painted_under_the_pointer
                  (fun r => r) (lit 3) scenarioViewport canvas0 move1
                  eq_refl ltac:(discriminate))).
Defined.
